(** * errdecode: rule index, default classifier and decoder

    A shallow embedding of the Go package [errdecode] (decode.go and the
    file that declares the options, the default encoder and the rule
    index) together with the properties of its rule compilation, of its
    default classifier and of [Decoder.Translate].

    Conventions of the embedding.
    - A Go call either returns or panics: [result].  Caller-supplied
      functions (matchers, encoders, message translators, options) are
      represented by their outcome on each argument.  A nil function value
      is the function that panics on every call; only [Rule.Match] is
      tested against nil by the code, so only that field is an [option].
    - Go's [int] is [Z]; the package does no arithmetic on codes.
    - An [error] interface value is nil, a value coming from outside the
      package, or a pointer to a [matchedError] allocated by [Translate].
    - A Go map keyed by [error] hashes the dynamic value of the key: an
      access or an assignment with a key whose dynamic type is not
      comparable panics (Go specification, "Map types").
    - A Go map finds a key with [==].  A comparable value that is not
      equal to itself (a value that holds a NaN) is never found: every
      assignment under it adds an entry that no access reaches.
    - The order in which [range] visits a map is chosen by the runtime:
      [RangeOrder]. *)

From stdpp Require Import strings countable fin_maps gmap gmultiset list.

(** ** Outcome of a call *)

Inductive result (A : Type) : Type :=
  | Ok (a : A)
  | Panic.
Arguments Ok {A} a.
Arguments Panic {A}.

#[global] Instance result_ret : MRet result := @Ok.
#[global] Instance result_bind : MBind result :=
  λ A B f r, match r with Ok a => f a | Panic => Panic end.

(** The call returned. *)
Definition returns {A} (r : result A) : Prop := ∃ a, r = Ok a.

(** ** Error values *)

(** What the package sees of an error value defined elsewhere: the text of
    its [Error()] method, whether Go can compare (and hash) it, and
    whether [x == x] holds of it (it does not when the value holds a NaN).
    On the values that are equal to themselves, [==] is the equality of
    [E]; a value that is not equal to itself is equal to no value. *)
Class ErrorValue (E : Type) := {
  Error_text : E → string;
  comparable : E → bool;
  selfEqual : E → bool
}.

(** Heap addresses handed out by the allocator. *)
Definition addr : Type := positive.
Bind Scope positive_scope with addr.

Section Model.
Context {E : Type} `{Countable E} `{ErrorValue E}.

(** [matchedError p code err msg] is the pointer [p] to the struct
    [matchedError{code, err, msg}]; the struct is never written after its
    allocation, so the pointer is shown with its contents. *)
Inductive error : Type :=
  | ErrNil
  | ErrValue (x : E)
  | matchedError (p : addr) (code : Z) (err : error) (msg : string).

#[global] Instance error_eq_dec : EqDecision error.
Proof using EqDecision0.
  intros e1 e2. unfold Decision. decide equality; apply (decide (_ = _)).
Defined.

Fixpoint error_to_tree (e : error) : gen_tree (E + addr * Z * string) :=
  match e with
  | ErrNil => GenNode 0 []
  | ErrValue x => GenLeaf (inl x)
  | matchedError p code err msg =>
      GenNode 1 [GenLeaf (inr (p, code, msg)); error_to_tree err]
  end.

Fixpoint tree_to_error (t : gen_tree (E + addr * Z * string)) : error :=
  match t with
  | GenLeaf (inl x) => ErrValue x
  | GenNode 1 [GenLeaf (inr (p, code, msg)); t'] =>
      matchedError p code (tree_to_error t') msg
  | _ => ErrNil
  end.

Lemma tree_to_error_to_tree e : tree_to_error (error_to_tree e) = e.
Proof. induction e; simpl; congruence. Qed.

#[global] Instance error_countable : Countable error :=
  inj_countable' error_to_tree tree_to_error tree_to_error_to_tree.

(** Whether the runtime can hash the value as a map key.  The nil
    interface and pointers always can. *)
Definition hashable (e : error) : bool :=
  match e with
  | ErrNil => true
  | ErrValue x => comparable x
  | matchedError _ _ _ _ => true
  end.

(** *** The methods of [*matchedError]

    [Code] and [Unwrap] answer [None] on a value that is not a
    [*matchedError]: the type assertion to [ClassifiedError] is decided by
    the dynamic type.  [Error] is the method of the [error] interface; the
    call panics on the nil interface. *)

Definition Code (e : error) : option Z :=
  match e with
  | matchedError _ code _ _ => Some code
  | _ => None
  end.

Definition Unwrap (e : error) : option error :=
  match e with
  | matchedError _ _ err _ => Some err
  | _ => None
  end.

Definition Error (e : error) : result string :=
  match e with
  | ErrNil => Panic
  | ErrValue x => Ok (Error_text x)
  | matchedError _ _ _ msg => Ok msg
  end.

(** The errors reached from [e] by repeated [Unwrap], [e] first. *)
Fixpoint unwrapChain (e : error) : list error :=
  e :: match e with
       | matchedError _ _ err _ => unwrapChain err
       | _ => []
       end.

(** ** decode.go: types *)

Definition MatcherFunc : Type := error → result bool.
Definition EncoderFunc : Type := error → result (Z * string).
Definition MessageTranslatorFunc : Type := string → result string.

Record Rule : Type := {
  Rule_Code : Z;
  Rule_Message : string;
  Rule_Errors : list error;
  Rule_Match : option MatcherFunc
}.

Record Decoder : Type := {
  encoder : EncoderFunc;
  msgTranslator : MessageTranslatorFunc
}.

(** ** Options *)

(** An [Option] is a function on a pointer to the decoder: here, the
    decoder after the call. *)
Definition Option : Type := Decoder → result Decoder.

Definition Message (t : MessageTranslatorFunc) : Option :=
  λ d, Ok {| encoder := encoder d; msgTranslator := t |}.

Definition Encoder (enc : EncoderFunc) : Option :=
  λ d, Ok {| encoder := enc; msgTranslator := msgTranslator d |}.

Definition defaultMessageTranslator : MessageTranslatorFunc :=
  λ msg, Ok msg.

(** Whether [e == e] holds.  The nil interface and pointers are equal to
    themselves. *)
Definition reflexive (e : error) : bool :=
  match e with
  | ErrNil => true
  | ErrValue x => selfEqual x
  | matchedError _ _ _ _ => true
  end.

(** ** Maps keyed by error values *)

(** A [map[error]int]: the entries under the keys that are equal to
    themselves, one per key, and the entries that were assigned under a
    key that is not equal to itself, which no access reaches and which
    are never overwritten. *)
Record codeMap : Type := {
  entries : gmap error Z;
  unreachable : gmultiset (error * Z)
}.

Definition emptyMap : codeMap := {| entries := ∅; unreachable := ∅ |}.

(** The entry that [==] finds under [key]. *)
#[global] Instance codeMap_lookup : Lookup error Z codeMap :=
  λ key m, if reflexive key then entries m !! key else None.

(** [v, ok := m[key]] *)
Definition mapaccess2 (m : codeMap) (key : error) : result (option Z) :=
  if hashable key then Ok (m !! key) else Panic.

(** [m[key] = v] *)
Definition mapassign (m : codeMap) (key : error) (v : Z) : result codeMap :=
  if hashable key then
    if reflexive key then
      Ok {| entries := <[key := v]> (entries m);
            unreachable := unreachable m |}
    else
      Ok {| entries := entries m;
            unreachable := {[+ (key, v) +]} ⊎ unreachable m |}
  else Panic.

(** ** The rule index *)

Record ruleIndex : Type := {
  codeToMatcher : gmap Z MatcherFunc;
  codeToMessage : gmap Z string;
  errToCode : codeMap
}.

(** [for _, e := range rule.Errors { errToCode[e] = code }] *)
Fixpoint assignErrors (code : Z) (es : list error) (m : codeMap)
  : result codeMap :=
  match es with
  | [] => Ok m
  | e :: es' => m' ← mapassign m e code; assignErrors code es' m'
  end.

(** The body of the loop of [newRuleIndex] on one rule. *)
Definition indexRule (idx : ruleIndex) (rule : Rule) : result ruleIndex :=
  let code := Rule_Code rule in
  let messages := <[code := Rule_Message rule]> (codeToMessage idx) in
  let matchers :=
    match Rule_Match rule with
    | Some matcher => <[code := matcher]> (codeToMatcher idx)
    | None => codeToMatcher idx
    end in
  errs ← assignErrors code (Rule_Errors rule) (errToCode idx);
  Ok {| codeToMatcher := matchers; codeToMessage := messages;
        errToCode := errs |}.

(** [for _, rule := range rs { ... }] *)
Fixpoint indexRules (rs : list Rule) (idx : ruleIndex) : result ruleIndex :=
  match rs with
  | [] => Ok idx
  | rule :: rs' => idx' ← indexRule idx rule; indexRules rs' idx'
  end.

Definition emptyIndex : ruleIndex :=
  {| codeToMatcher := ∅; codeToMessage := ∅; errToCode := emptyMap |}.

Definition newRuleIndex (rs : list Rule) : result ruleIndex :=
  indexRules rs emptyIndex.

(** ** The default encoder *)

(** The order in which one [range] statement visits the entries of the
    matcher map: any enumeration of the entries, each exactly once. *)
Record RangeOrder : Type := {
  range : gmap Z MatcherFunc → list (Z * MatcherFunc);
  range_perm : ∀ m, range m ≡ₚ map_to_list m
}.

(** [idx.codeToMessage[code]]: the zero value when the key is absent. *)
Definition messageOf (idx : ruleIndex) (code : Z) : string :=
  default "" (codeToMessage idx !! code).

(** [for code, matcher := range idx.codeToMatcher { ... }] followed by the
    final [return 0, ""], over the entries in the order of the visit. *)
Fixpoint rangeMatchers (idx : ruleIndex) (entries : list (Z * MatcherFunc))
    (err : error) : result (Z * string) :=
  match entries with
  | [] => Ok (0%Z, "")
  | (code, matcher) :: entries' =>
      isMatch ← matcher err;
      if (isMatch : bool) then Ok (code, messageOf idx code)
      else rangeMatchers idx entries' err
  end.

(** The closure returned by [newDefaultEncoder], with the index it
    captures. *)
Definition defaultEncoder (ro : RangeOrder) (idx : ruleIndex) : EncoderFunc :=
  λ err,
    found ← mapaccess2 (errToCode idx) err;
    match found with
    | Some code => Ok (code, messageOf idx code)
    | None => rangeMatchers idx (range ro (codeToMatcher idx)) err
    end.

Definition newDefaultEncoder (ro : RangeOrder) (rs : list Rule)
  : result EncoderFunc :=
  idx ← newRuleIndex rs;
  Ok (defaultEncoder ro idx).

(** ** The decoder *)

(** [for _, option := range options { option(d) }] *)
Fixpoint applyOptions (options : list Option) (d : Decoder) : result Decoder :=
  match options with
  | [] => Ok d
  | option :: options' => d' ← option d; applyOptions options' d'
  end.

Definition New (ro : RangeOrder) (rs : list Rule) (options : list Option)
  : result Decoder :=
  enc ← newDefaultEncoder ro rs;
  applyOptions options
    {| encoder := enc; msgTranslator := defaultMessageTranslator |}.

(** [&matchedError{code, err, msg}]: the new pointer and the next free
    address. *)
Definition new_matchedError (h : addr) (code : Z) (err : error) (msg : string)
  : error * addr :=
  (matchedError h code err msg, Pos.succ h).

(** [Translate] at the allocator state [h]: the returned error and the
    allocator state after the call. *)
Definition Translate (d : Decoder) (err : error) (h : addr)
  : result (error * addr) :=
  '(code, msg) ← encoder d err;
  if decide (code = 0%Z) then Ok (err, h)
  else
    translated ← msgTranslator d msg;
    Ok (new_matchedError h code err translated).

End Model.

Arguments error E : clear implicits.
Arguments MatcherFunc E : clear implicits.
Arguments EncoderFunc E : clear implicits.
Arguments Rule E : clear implicits.
Arguments Decoder E : clear implicits.
Arguments Option E : clear implicits.
Arguments codeMap E {_ _}.
Arguments ruleIndex E {_ _}.
Arguments RangeOrder E : clear implicits.

(** ** Notions used by the properties *)

(** The last rule of [rs] that satisfies [P], in input order. *)
Definition lastRule {E : Type} (P : Rule E → Prop) `{∀ r, Decision (P r)}
    (rs : list (Rule E)) : option (Rule E) :=
  last (filter P rs).

(** Every known error of every rule can be hashed. *)
Definition hashableRules {E : Type} `{ErrorValue E} (rs : list (Rule E)) : Prop :=
  ∀ r e, r ∈ rs → e ∈ Rule_Errors r → hashable e = true.

(** The options the package provides. *)
Inductive builtinOption {E : Type} : Option E → Prop :=
  | builtin_Message (t : MessageTranslatorFunc) : builtinOption (Message t)
  | builtin_Encoder (enc : EncoderFunc E) : builtinOption (Encoder enc).

(** The entries assigned under keys that are not equal to themselves:
    one for every listing of such a value, with the code of the rule. *)
Definition deadEntries {E : Type} `{ErrorValue E} (rs : list (Rule E))
  : list (error E * Z) :=
  rs ≫= λ r, (λ e, (e, Rule_Code r)) <$>
               filter (λ e, reflexive e = false) (Rule_Errors r).

(** No two distinct rules share a code or a known error. *)
Definition conflictFree {E : Type} (rs : list (Rule E)) : Prop :=
  ∀ r1 r2, r1 ∈ rs → r2 ∈ rs →
    Rule_Code r1 = Rule_Code r2 ∨
      (∃ e, e ∈ Rule_Errors r1 ∧ e ∈ Rule_Errors r2) →
    r1 = r2.

(** A visit of the matcher map that starts with the entry of [code], when
    the map has one. *)
Definition frontRange {E : Type} (code : Z) (m : gmap Z (MatcherFunc E))
  : list (Z * MatcherFunc E) :=
  match m !! code with
  | Some matcher => (code, matcher) :: map_to_list (delete code m)
  | None => map_to_list m
  end.

Lemma frontRange_perm {E : Type} (code : Z) (m : gmap Z (MatcherFunc E)) :
  frontRange code m ≡ₚ map_to_list m.
Proof.
  unfold frontRange. destruct (m !! code) as [matcher|] eqn:Hm; [|done].
  by apply map_to_list_delete.
Qed.

Definition frontOrder {E : Type} (code : Z) : RangeOrder E :=
  {| range := frontRange code; range_perm := frontRange_perm code |}.

(** ** Sample values

    The error values of the package's tests, one value of a slice type,
    which Go cannot compare, and one value of a struct type with a
    floating-point field that holds a NaN, which Go compares and hashes
    but which is not equal to itself. *)

Inductive sample : Type :=
  | errClient1
  | errClient2
  | errUnclassified
  | errList
  | errNaN.

#[global] Instance sample_eq_dec : EqDecision sample.
Proof. intros x y. unfold Decision. decide equality. Defined.

Definition sample_to_nat (x : sample) : nat :=
  match x with
  | errClient1 => 0
  | errClient2 => 1
  | errUnclassified => 2
  | errList => 3
  | errNaN => 4
  end.

Definition nat_to_sample (n : nat) : sample :=
  match n with
  | 0 => errClient1
  | 1 => errClient2
  | 2 => errUnclassified
  | 3 => errList
  | _ => errNaN
  end.

Lemma nat_to_sample_to_nat x : nat_to_sample (sample_to_nat x) = x.
Proof. by destruct x. Qed.

#[global] Instance sample_countable : Countable sample :=
  inj_countable' sample_to_nat nat_to_sample nat_to_sample_to_nat.

#[global] Instance sample_error : ErrorValue sample := {|
  Error_text x :=
    match x with
    | errClient1 => "client error 1"
    | errClient2 => "client error 2"
    | errUnclassified => "unclassified error"
    | errList => "error list"
    | errNaN => "not a number"
    end;
  comparable x := match x with errList => false | _ => true end;
  selfEqual x := match x with errNaN => false | _ => true end
|}.

(** The entries in the order of [map_to_list]. *)
Definition listOrder {E : Type} : RangeOrder E :=
  {| range := map_to_list; range_perm := λ m, reflexivity (map_to_list m) |}.

(** The matcher that answers [b] on every error. *)
Definition always {E : Type} (b : bool) : MatcherFunc E := λ _, Ok b.

(** A matcher on the dynamic type, as a type switch would do. *)
Definition isList : MatcherFunc sample :=
  λ err, match err with ErrValue errList => Ok true | _ => Ok false end.

Definition clientRule : Rule sample :=
  {| Rule_Code := 1001; Rule_Message := "error.client";
     Rule_Errors := [ErrValue errClient1; ErrValue errClient2];
     Rule_Match := None |}.

Definition listRule : Rule sample :=
  {| Rule_Code := 1002; Rule_Message := "error.custom";
     Rule_Errors := []; Rule_Match := Some isList |}.

Definition catchAllRule : Rule sample :=
  {| Rule_Code := 1000; Rule_Message := "error.catchall";
     Rule_Errors := []; Rule_Match := Some (always true) |}.

(** A later rule that lists [errClient1] again, under another code. *)
Definition otherRule : Rule sample :=
  {| Rule_Code := 1003; Rule_Message := "error.other";
     Rule_Errors := [ErrValue errClient1]; Rule_Match := None |}.

(** A rule that lists [errClient1] once more, under the code and the
    message of [clientRule]. *)
Definition backRule : Rule sample :=
  {| Rule_Code := 1001; Rule_Message := "error.client";
     Rule_Errors := [ErrValue errClient1]; Rule_Match := None |}.

(** A later rule with a predicate and the code of [clientRule]. *)
Definition sameCodeRule : Rule sample :=
  {| Rule_Code := 1001; Rule_Message := "error.catchall";
     Rule_Errors := []; Rule_Match := Some (always true) |}.

(** A later rule with the code of [catchAllRule] and no predicate. *)
Definition renameRule : Rule sample :=
  {| Rule_Code := 1000; Rule_Message := "error.general";
     Rule_Errors := []; Rule_Match := None |}.

(** A rule that uses the reserved code. *)
Definition zeroRule : Rule sample :=
  {| Rule_Code := 0; Rule_Message := "error.zero";
     Rule_Errors := [ErrValue errUnclassified]; Rule_Match := None |}.

(** A second rule whose predicate accepts every error. *)
Definition fallbackRule : Rule sample :=
  {| Rule_Code := 1005; Rule_Message := "error.fallback";
     Rule_Errors := []; Rule_Match := Some (always true) |}.

(** A rule that lists the value that is not equal to itself. *)
Definition nanRule : Rule sample :=
  {| Rule_Code := 1007; Rule_Message := "error.nan";
     Rule_Errors := [ErrValue errNaN]; Rule_Match := None |}.

(** A rule that can match nothing. *)
Definition inertRule : Rule sample :=
  {| Rule_Code := 1006; Rule_Message := "error.unused";
     Rule_Errors := []; Rule_Match := None |}.

(** A rule that lists the value of a slice type. *)
Definition sliceRule : Rule sample :=
  {| Rule_Code := 1004; Rule_Message := "error.list";
     Rule_Errors := [ErrValue errList]; Rule_Match := None |}.

(** An encoder that classifies nothing. *)
Definition noneEncoder : EncoderFunc sample := λ _, Ok (0%Z, "").

(** A translator that looks a key up. *)
Definition lookupTranslator : MessageTranslatorFunc :=
  λ msg, if decide (msg = "error.client") then Ok "Translated client error."
         else Ok msg.

(** Case analysis on the membership [H] in a list that is written out. *)
Ltac split_elem H :=
  repeat (apply elem_of_cons in H as [H|H]; [try discriminate H; subst|]);
  try (by apply elem_of_nil in H).

(** * Properties *)

Section Properties.
Context {E : Type} `{Countable E} `{ErrorValue E}.
Implicit Types (e err : error E) (r rule : Rule E) (rs : list (Rule E)).
Implicit Types (idx : ruleIndex E) (d : Decoder E) (ro : RangeOrder E).
Implicit Types (h : addr) (c code : Z) (msg : string).

(** ** Calls *)

Lemma bind_Ok {A B} (r : result A) (f : A → result B) (b : B) :
  r ≫= f = Ok b ↔ ∃ a, r = Ok a ∧ f a = Ok b.
Proof.
  destruct r as [a|]; simpl; split.
  - intros Hf. by exists a.
  - by intros (a' & [= <-] & Hf).
  - done.
  - by intros (a' & Ha & _).
Qed.

Lemma returns_Ok {A} (a : A) : returns (Ok a).
Proof. by exists a. Qed.

(** ** Map assignments *)

Lemma codeMap_lookup_eq (m : codeMap E) e :
  m !! e = if reflexive e then entries m !! e else None.
Proof. done. Qed.

Lemma mapassign_Ok (m m' : codeMap E) e v :
  mapassign m e v = Ok m' ↔
  hashable e = true ∧
  m' = if reflexive e then
         {| entries := <[e := v]> (entries m); unreachable := unreachable m |}
       else
         {| entries := entries m;
            unreachable := {[+ (e, v) +]} ⊎ unreachable m |}.
Proof.
  unfold mapassign. destruct (hashable e), (reflexive e); split;
    try (by intros [= <-]); try (by intros [_ ->]); try done;
    by intros [? _].
Qed.

Lemma assignErrors_cons code e (es : list (error E)) (m : codeMap E) :
  assignErrors code (e :: es) m = mapassign m e code ≫= assignErrors code es.
Proof. done. Qed.

(** After the loop: the keys that are equal to themselves have the code,
    the other entries that an access reaches are untouched, and every
    key that is not equal to itself has added one unreachable entry. *)
Lemma assignErrors_Ok code (es : list (error E)) (m m' : codeMap E) :
  assignErrors code es m = Ok m' →
  Forall (λ e, hashable e = true) es ∧
  (∀ e, entries m' !! e =
          if decide (e ∈ es ∧ reflexive e = true) then Some code
          else entries m !! e) ∧
  unreachable m' =
    list_to_set_disj
      ((λ e, (e, code)) <$> filter (λ e, reflexive e = false) es)
    ⊎ unreachable m.
Proof.
  revert m. induction es as [|k es IH]; intros m.
  - intros [= <-]. split; [constructor|]. split.
    + intros e. rewrite decide_False; [done|].
      by intros [Hin%elem_of_nil _].
    + rewrite filter_nil. simpl. multiset_solver.
  - rewrite assignErrors_cons. intros (m1 & Hm1 & Hrest)%bind_Ok.
    apply mapassign_Ok in Hm1 as [Hk ->].
    destruct (IH _ Hrest) as (Hall & Hlook & Hdead).
    split; [by constructor|]. split.
    + intros e. rewrite Hlook.
      destruct (decide (e ∈ es ∧ reflexive e = true)) as [[Hin He]|Hin].
      * rewrite decide_True; [done|]. split; [by right|done].
      * destruct (reflexive k) eqn:Hrk; simpl.
        -- destruct (decide (e = k)) as [->|Hne].
           ++ rewrite lookup_insert_eq.
              rewrite decide_True; [done|]. split; [by left|done].
           ++ rewrite lookup_insert_ne by done.
              rewrite decide_False; [done|].
              intros [[?|?]%elem_of_cons He]; [done|]. by apply Hin.
        -- rewrite decide_False; [done|].
           intros [[->|?]%elem_of_cons He]; [congruence|]. by apply Hin.
    + rewrite Hdead, filter_cons.
      destruct (reflexive k) eqn:Hrk; simpl; [done|].
      by rewrite (assoc_L (⊎)), (comm_L (⊎) _ {[+ (k, code) +]}).
Qed.

Lemma assignErrors_returns code (es : list (error E)) (m : codeMap E) :
  Forall (λ e, hashable e = true) es → returns (assignErrors code es m).
Proof.
  intros Hall. revert m. induction Hall as [|k es Hk _ IH]; intros m.
  - apply returns_Ok.
  - rewrite assignErrors_cons. unfold mapassign. rewrite Hk.
    destruct (reflexive k); simpl; apply IH.
Qed.

(** ** One rule *)

Lemma indexRule_Ok idx idx' r :
  indexRule idx r = Ok idx' →
  codeToMessage idx' = <[Rule_Code r := Rule_Message r]> (codeToMessage idx) ∧
  codeToMatcher idx' =
    match Rule_Match r with
    | Some f => <[Rule_Code r := f]> (codeToMatcher idx)
    | None => codeToMatcher idx
    end ∧
  assignErrors (Rule_Code r) (Rule_Errors r) (errToCode idx) = Ok (errToCode idx').
Proof.
  unfold indexRule. intros (errs & Herrs & [= <-])%bind_Ok. by simpl.
Qed.

Lemma indexRule_returns idx r :
  Forall (λ e, hashable e = true) (Rule_Errors r) → returns (indexRule idx r).
Proof.
  intros Hall. unfold indexRule.
  destruct (assignErrors_returns (Rule_Code r) _ (errToCode idx) Hall) as [m ->].
  apply returns_Ok.
Qed.

Lemma indexRules_app rs1 rs2 idx :
  indexRules (rs1 ++ rs2) idx = indexRules rs1 idx ≫= indexRules rs2.
Proof.
  revert idx. induction rs1 as [|r rs1 IH]; intros idx; simpl; [done|].
  destruct (indexRule idx r) as [idx1|]; simpl; [apply IH|done].
Qed.

Lemma newRuleIndex_snoc rs r idx' :
  newRuleIndex (rs ++ [r]) = Ok idx' ↔
  ∃ idx, newRuleIndex rs = Ok idx ∧ indexRule idx r = Ok idx'.
Proof.
  unfold newRuleIndex. rewrite indexRules_app, bind_Ok. simpl.
  split; intros (idx & Hidx & Hr); exists idx; split; try done.
  - by destruct (indexRule idx r).
  - by rewrite Hr.
Qed.

(** ** The last rule that satisfies a condition *)

Lemma lastRule_snoc (P : Rule E → Prop) `{∀ r, Decision (P r)} rs r :
  lastRule P (rs ++ [r]) = if decide (P r) then Some r else lastRule P rs.
Proof.
  unfold lastRule. rewrite filter_app, filter_cons, filter_nil.
  case_decide.
  - apply last_snoc.
  - by rewrite app_nil_r.
Qed.

Lemma lastRule_Some (P : Rule E → Prop) `{∀ r, Decision (P r)} rs r :
  lastRule P rs = Some r → r ∈ rs ∧ P r.
Proof.
  induction rs as [|r' rs IH] using rev_ind; [done|].
  rewrite lastRule_snoc. case_decide.
  - intros [= ->]. split; [|done]. apply elem_of_app. right. by left.
  - intros [Hin HP]%IH. split; [|done]. apply elem_of_app. by left.
Qed.

Lemma lastRule_None (P : Rule E → Prop) `{∀ r, Decision (P r)} rs :
  lastRule P rs = None ↔ ∀ r, r ∈ rs → ¬ P r.
Proof.
  induction rs as [|r' rs IH] using rev_ind.
  - split; [|done]. by intros _ r Hr%elem_of_nil.
  - rewrite lastRule_snoc. case_decide as HP.
    + split; [done|]. intros Hall. destruct (Hall r'); [|done].
      apply elem_of_app. right. by left.
    + rewrite IH. split; intros Hall r Hr.
      * apply elem_of_app in Hr as [Hr|Hr]; [by apply Hall|].
        apply list_elem_of_singleton in Hr as ->. done.
      * apply Hall, elem_of_app. by left.
Qed.

(** [r] stands in [rs] and every later rule that satisfies [P] agrees with
    [r] on [f]: the last rule that satisfies [P] has [f r]. *)
Lemma lastRule_split {A} (f : Rule E → A) (P : Rule E → Prop)
    `{∀ r, Decision (P r)} pre r post :
  P r → (∀ r', r' ∈ post → P r' → f r' = f r) →
  f <$> lastRule P (pre ++ r :: post) = Some (f r).
Proof.
  intros HP. induction post as [|r' post IH] using rev_ind; intros Hpost.
  - by rewrite lastRule_snoc, decide_True.
  - replace (pre ++ r :: post ++ [r']) with ((pre ++ r :: post) ++ [r'])
      by (by rewrite <- app_assoc).
    rewrite lastRule_snoc. case_decide as HP'.
    + simpl. f_equal. apply Hpost; [|done]. apply elem_of_app. right. by left.
    + apply IH. intros r'' Hin. apply Hpost, elem_of_app. by left.
Qed.

(** ** The index after compilation *)

(** Compilation returns exactly when every known error can be hashed. *)
Lemma newRuleIndex_returns rs :
  returns (newRuleIndex rs) ↔ hashableRules rs.
Proof.
  induction rs as [|r rs IH] using rev_ind.
  - split; [|intros _; apply returns_Ok]. by intros _ r e Hr%elem_of_nil.
  - split.
    + intros [idx' (idx & Hidx & Hr)%newRuleIndex_snoc].
      apply indexRule_Ok in Hr as (_ & _ & [Hall _]%assignErrors_Ok).
      assert (hashableRules rs) as Hrs by (apply IH; by exists idx).
      intros r' e [Hin|Hin%list_elem_of_singleton]%elem_of_app He.
      * by apply (Hrs r').
      * subst r'. by apply (proj1 (Forall_forall _ _) Hall).
    + intros Hrs. destruct (proj2 IH) as [idx Hidx].
      { intros r' e Hin. apply Hrs, elem_of_app. by left. }
      destruct (indexRule_returns idx r) as [idx' Hidx'].
      { apply Forall_forall. intros e. apply Hrs, elem_of_app. right. by left. }
      exists idx'. apply newRuleIndex_snoc. by exists idx.
Qed.

(** The message recorded for a code is that of the last rule bearing it. *)
Lemma codeToMessage_lastRule rs idx c :
  newRuleIndex rs = Ok idx →
  codeToMessage idx !! c =
    Rule_Message <$> lastRule (λ r, Rule_Code r = c) rs.
Proof.
  revert idx. induction rs as [|r rs IH] using rev_ind; intros idx.
  - by intros [= <-].
  - intros (idx0 & Hidx0 & (-> & _)%indexRule_Ok)%newRuleIndex_snoc.
    rewrite lastRule_snoc, lookup_insert. case_decide; [done|]. by apply IH.
Qed.

(** The matcher recorded for a code is that of the last rule bearing the
    code among the rules that declare a matcher. *)
Lemma codeToMatcher_lastRule rs idx c :
  newRuleIndex rs = Ok idx →
  codeToMatcher idx !! c =
    lastRule (λ r, Rule_Code r = c ∧ is_Some (Rule_Match r)) rs ≫= Rule_Match.
Proof.
  revert idx. induction rs as [|r rs IH] using rev_ind; intros idx.
  - by intros [= <-].
  - intros (idx0 & Hidx0 & (_ & -> & _)%indexRule_Ok)%newRuleIndex_snoc.
    rewrite lastRule_snoc. destruct (Rule_Match r) as [f|] eqn:Hf.
    + rewrite lookup_insert. case_decide as Hc.
      * rewrite decide_True by (split; [done|by eexists]). by simpl.
      * rewrite decide_False by (by intros [? _]). by apply IH.
    + rewrite decide_False by (intros [_ [? [=]]]). by apply IH.
Qed.

(** The entry stored under a key that is equal to itself has the code of
    the last rule that lists the key; no entry is stored under another
    key. *)
Lemma entries_lastRule rs idx e :
  newRuleIndex rs = Ok idx →
  entries (errToCode idx) !! e =
    if reflexive e then Rule_Code <$> lastRule (λ r, e ∈ Rule_Errors r) rs
    else None.
Proof.
  revert idx. induction rs as [|r rs IH] using rev_ind; intros idx.
  - intros [= <-]. simpl. rewrite lookup_empty. by destruct (reflexive e).
  - intros (idx0 & Hidx0 & (_ & _ & Herrs)%indexRule_Ok)%newRuleIndex_snoc.
    apply assignErrors_Ok in Herrs as (_ & -> & _).
    rewrite lastRule_snoc, (IH _ Hidx0).
    destruct (reflexive e) eqn:He.
    + destruct (decide (e ∈ Rule_Errors r)) as [Hin|Hin].
      * by rewrite decide_True.
      * rewrite decide_False; [done|]. by intros [? _].
    + rewrite decide_False; [done|]. by intros [_ ?].
Qed.

(** What an access finds: the code of the last rule that lists the key,
    when the key is equal to itself, and nothing otherwise. *)
Lemma errToCode_lastRule rs idx e :
  newRuleIndex rs = Ok idx →
  errToCode idx !! e =
    if reflexive e then Rule_Code <$> lastRule (λ r, e ∈ Rule_Errors r) rs
    else None.
Proof.
  intros Hidx. rewrite codeMap_lookup_eq, (entries_lastRule rs idx e Hidx).
  by destruct (reflexive e).
Qed.

Lemma errToCode_unlisted rs idx e :
  newRuleIndex rs = Ok idx → (∀ r, r ∈ rs → e ∉ Rule_Errors r) →
  errToCode idx !! e = None.
Proof.
  intros Hidx Hlist. rewrite (errToCode_lastRule rs idx e Hidx).
  rewrite (proj2 (lastRule_None (λ r, e ∈ Rule_Errors r) rs) Hlist).
  by destruct (reflexive e).
Qed.

Lemma errToCode_Some rs idx e c :
  newRuleIndex rs = Ok idx → errToCode idx !! e = Some c →
  reflexive e = true ∧
  ∃ r, lastRule (λ r, e ∈ Rule_Errors r) rs = Some r ∧ Rule_Code r = c.
Proof.
  intros Hidx. rewrite (errToCode_lastRule rs idx e Hidx).
  destruct (reflexive e); [|done].
  destruct (lastRule _ rs) as [r|]; [|done]. intros [= <-].
  split; [done|]. by exists r.
Qed.

(** The entries that no access reaches. *)
Lemma unreachable_deadEntries rs idx :
  newRuleIndex rs = Ok idx →
  unreachable (errToCode idx) = list_to_set_disj (deadEntries rs).
Proof.
  revert idx. induction rs as [|r rs IH] using rev_ind; intros idx.
  - by intros [= <-].
  - intros (idx0 & Hidx0 & (_ & _ & Herrs)%indexRule_Ok)%newRuleIndex_snoc.
    apply assignErrors_Ok in Herrs as (_ & _ & ->).
    rewrite (IH _ Hidx0). unfold deadEntries.
    rewrite bind_app, list_to_set_disj_app. simpl. rewrite app_nil_r.
    apply (comm_L (⊎)).
Qed.

(** A key of the error map was assigned, so it can be hashed. *)
Lemma errToCode_hashable rs idx e c :
  newRuleIndex rs = Ok idx → errToCode idx !! e = Some c → hashable e = true.
Proof.
  intros Hidx (_ & r & Hr & _)%(errToCode_Some rs idx); [|done].
  apply lastRule_Some in Hr as [Hin He].
  assert (hashableRules rs) as Hrs by (apply newRuleIndex_returns; by exists idx).
  by apply (Hrs r).
Qed.

(** A recorded matcher is the matcher of a rule bearing the code. *)
Lemma codeToMatcher_rule rs idx c (f : MatcherFunc E) :
  newRuleIndex rs = Ok idx → codeToMatcher idx !! c = Some f →
  ∃ r, r ∈ rs ∧ Rule_Code r = c ∧ Rule_Match r = Some f.
Proof.
  intros Hidx. rewrite (codeToMatcher_lastRule rs idx c Hidx).
  destruct (lastRule _ rs) as [r|] eqn:Hr; [|done]. simpl. intros Hf.
  apply lastRule_Some in Hr as [Hin [Hc _]]. by exists r.
Qed.

(** ** The default encoder *)

Lemma elem_of_range ro (m : gmap Z (MatcherFunc E)) c (f : MatcherFunc E) :
  (c, f) ∈ range ro m ↔ m !! c = Some f.
Proof. rewrite (range_perm ro m). apply elem_of_map_to_list. Qed.

(** No visited matcher reports a match: the loop falls through to the
    final return. *)
Lemma rangeMatchers_unmatched idx (entries : list (Z * MatcherFunc E)) e :
  Forall (λ entry, entry.2 e = Ok false) entries →
  rangeMatchers idx entries e = Ok (0%Z, "").
Proof.
  induction 1 as [|[c f] entries Hf _ IH]; simpl in *; [done|].
  by rewrite Hf.
Qed.

(** Every visited matcher returns on [e]: so does the loop. *)
Lemma rangeMatchers_returns idx (entries : list (Z * MatcherFunc E)) e :
  Forall (λ entry, returns (entry.2 e)) entries →
  returns (rangeMatchers idx entries e).
Proof.
  induction 1 as [|[c f] entries [b Hf] _ IH]; simpl in *.
  - apply returns_Ok.
  - rewrite Hf. simpl. destruct b; [apply returns_Ok|apply IH].
Qed.

(** Every visited matcher rejects [e], or returns on [e] and stands under
    the code 0: the loop returns the code 0. *)
Lemma rangeMatchers_code_zero idx (entries : list (Z * MatcherFunc E)) e :
  Forall (λ entry, entry.2 e = Ok false ∨
                   (entry.1 = 0%Z ∧ returns (entry.2 e))) entries →
  ∃ msg, rangeMatchers idx entries e = Ok (0%Z, msg).
Proof.
  induction 1 as [|[c f] entries Hf _ IH]; simpl in *.
  - by eexists.
  - destruct Hf as [->|[-> [[|] ->]]]; simpl; [done|by eexists|done].
Qed.

(** The identity check answers first; the matchers are not called. *)
Lemma defaultEncoder_known ro idx e c :
  hashable e = true → errToCode idx !! e = Some c →
  defaultEncoder ro idx e = Ok (c, messageOf idx c).
Proof.
  intros He Hc. unfold defaultEncoder, mapaccess2. by rewrite He, Hc.
Qed.

Lemma defaultEncoder_unknown ro idx e :
  hashable e = true → errToCode idx !! e = None →
  defaultEncoder ro idx e = rangeMatchers idx (range ro (codeToMatcher idx)) e.
Proof.
  intros He Hc. unfold defaultEncoder, mapaccess2. by rewrite He, Hc.
Qed.

(** The map access panics on a value that cannot be hashed, whatever the
    index holds. *)
Lemma defaultEncoder_unhashable ro idx e :
  hashable e = false → defaultEncoder ro idx e = Panic.
Proof. intros He. unfold defaultEncoder, mapaccess2. by rewrite He. Qed.

Lemma newDefaultEncoder_Ok ro rs (enc : EncoderFunc E) :
  newDefaultEncoder ro rs = Ok enc ↔
  ∃ idx, newRuleIndex rs = Ok idx ∧ enc = defaultEncoder ro idx.
Proof.
  unfold newDefaultEncoder. rewrite bind_Ok.
  split; intros (idx & Hidx & Henc); exists idx; split; try done.
  - by injection Henc.
  - by rewrite Henc.
Qed.

(** The default classifier on a listed error value that is equal to
    itself: the code of the last rule listing it, the message of the last
    rule bearing that code. *)
Lemma defaultEncoder_listed ro rs idx e c msg :
  newRuleIndex rs = Ok idx → reflexive e = true →
  Rule_Code <$> lastRule (λ r', e ∈ Rule_Errors r') rs = Some c →
  Rule_Message <$> lastRule (λ r', Rule_Code r' = c) rs = Some msg →
  defaultEncoder ro idx e = Ok (c, msg).
Proof.
  intros Hidx He Hcode Hmsg.
  assert (errToCode idx !! e = Some c) as Hc.
  { by rewrite (errToCode_lastRule rs idx e Hidx), He. }
  rewrite (defaultEncoder_known ro idx e c);
    [|by eapply errToCode_hashable|done].
  unfold messageOf. by rewrite (codeToMessage_lastRule rs idx c Hidx), Hmsg.
Qed.

(** The default classifier on a value that no rule lists and no matcher
    accepts. *)
Lemma defaultEncoder_unclassified ro rs idx e :
  newRuleIndex rs = Ok idx → hashable e = true →
  (∀ r, r ∈ rs → e ∉ Rule_Errors r) →
  (∀ r f, r ∈ rs → Rule_Match r = Some f → f e = Ok false) →
  defaultEncoder ro idx e = Ok (0%Z, "").
Proof.
  intros Hidx He Hlist Hmatch.
  rewrite defaultEncoder_unknown; [|done|].
  - apply rangeMatchers_unmatched, Forall_forall. intros [c f] Hin.
    apply elem_of_range in Hin.
    destruct (codeToMatcher_rule rs idx c f Hidx Hin) as (r & Hr & _ & Hf).
    by apply (Hmatch r).
  - by apply (errToCode_unlisted rs).
Qed.

(** The message read for the code of a rule of the rule set. *)
Lemma messageOf_known rs idx r :
  newRuleIndex rs = Ok idx → r ∈ rs →
  ∃ msg,
    Rule_Message <$> lastRule (λ r', Rule_Code r' = Rule_Code r) rs = Some msg ∧
    messageOf idx (Rule_Code r) = msg.
Proof.
  intros Hidx Hr. unfold messageOf.
  rewrite (codeToMessage_lastRule rs idx _ Hidx).
  destruct (lastRule _ rs) as [r0|] eqn:Hlast.
  - by exists (Rule_Message r0).
  - by destruct (proj1 (lastRule_None _ rs) Hlast r Hr).
Qed.

(** ** Translate *)

Lemma Translate_zero d e msg h :
  encoder d e = Ok (0%Z, msg) → Translate d e h = Ok (e, h).
Proof. intros Henc. unfold Translate. by rewrite Henc. Qed.

Lemma Translate_nonzero d e c msg h :
  encoder d e = Ok (c, msg) → c ≠ 0%Z →
  Translate d e h =
    msgTranslator d msg ≫= λ translated, Ok (new_matchedError h c e translated).
Proof.
  intros Henc Hc. unfold Translate. rewrite Henc. simpl.
  by rewrite decide_False.
Qed.

(** ** New *)

Lemma New_default ro rs d :
  New ro rs [] = Ok d ↔
  ∃ idx, newRuleIndex rs = Ok idx ∧
    d = {| encoder := defaultEncoder ro idx;
           msgTranslator := defaultMessageTranslator |}.
Proof.
  unfold New. rewrite bind_Ok. split.
  - intros (enc & (idx & Hidx & ->)%newDefaultEncoder_Ok & [= <-]).
    by exists idx.
  - intros (idx & Hidx & ->). exists (defaultEncoder ro idx). split; [|done].
    apply newDefaultEncoder_Ok. by exists idx.
Qed.

(** Construction returns exactly when every known error can be hashed. *)
Lemma New_default_returns ro rs :
  returns (New ro rs []) ↔ hashableRules rs.
Proof.
  rewrite <- newRuleIndex_returns. split.
  - intros [d (idx & Hidx & _)%New_default]. by exists idx.
  - intros [idx Hidx]. eexists. apply New_default. by exists idx.
Qed.

(** * Properties of the specification *)

(** Pass-through on comparable values.  Whenever the configured classifier
    returns code 0 on [e], [Translate] returns [e] itself and allocates
    nothing.  This is the case, with the default classifier of a rule
    set, for every comparable error value [e] that no rule lists among
    its known errors and on which every predicate of the rules returns
    false.  On a value that Go cannot compare the default classifier
    panics instead ([defaultEncoder_unhashable]). *)
Theorem Translate_passthrough :
  (∀ d e msg h, encoder d e = Ok (0%Z, msg) → Translate d e h = Ok (e, h)) ∧
  (∀ ro rs (enc : EncoderFunc E) d e h,
     newDefaultEncoder ro rs = Ok enc → encoder d = enc →
     hashable e = true →
     (∀ r, r ∈ rs → e ∉ Rule_Errors r) →
     (∀ r f, r ∈ rs → Rule_Match r = Some f → f e = Ok false) →
     encoder d e = Ok (0%Z, "") ∧ Translate d e h = Ok (e, h)).
Proof.
  split; [exact Translate_zero|].
  intros ro rs enc d e h (idx & Hidx & ->)%newDefaultEncoder_Ok Hd He Hl Hm.
  assert (encoder d e = Ok (0%Z, "")) as Henc.
  { rewrite Hd. by apply (defaultEncoder_unclassified ro rs). }
  split; [done|]. by apply (Translate_zero d e "").
Qed.

(** C2, amended.  Let [r] be a rule of the rule set with a non-zero code
    and [e] one of its known errors, equal to itself under [==].  A
    decoder built with the default classifier and the default translator
    translates [e] to a classified error whose [Code()] is the code of [r]
    and whose [Error()] is the message of [r] provided that (and only
    then) the last rule listing [e] bears the code of [r] and the last
    rule bearing that code has the message of [r]. *)
Theorem Translate_known_error ro rs r d e h :
  New ro rs [] = Ok d →
  r ∈ rs → Rule_Code r ≠ 0%Z → e ∈ Rule_Errors r →
  reflexive e = true →
  (Rule_Code <$> lastRule (λ r', e ∈ Rule_Errors r') rs = Some (Rule_Code r) ∧
   Rule_Message <$> lastRule (λ r', Rule_Code r' = Rule_Code r) rs
     = Some (Rule_Message r))
  ↔ ∃ w, Translate d e h = Ok (w, Pos.succ h) ∧
         Code w = Some (Rule_Code r) ∧ Error w = Ok (Rule_Message r).
Proof.
  intros (idx & Hidx & ->)%New_default Hr Hc He Hrefl. split.
  - intros [Hcode Hmsg].
    exists (matchedError h (Rule_Code r) e (Rule_Message r)).
    split; [|done].
    rewrite (Translate_nonzero _ e (Rule_Code r) (Rule_Message r));
      [done| |done].
    simpl. by apply (defaultEncoder_listed ro rs).
  - intros (w & Hw & Hcw & Hew).
    destruct (lastRule (λ r', e ∈ Rule_Errors r') rs) as [r0|] eqn:Hlast;
      [|by destruct (proj1 (lastRule_None _ rs) Hlast r Hr)].
    destruct (messageOf_known rs idx r Hidx Hr) as (m & Hm & Hof).
    assert (errToCode idx !! e = Some (Rule_Code r0)) as Hfound.
    { by rewrite (errToCode_lastRule rs idx e Hidx), Hrefl, Hlast. }
    pose proof (defaultEncoder_known ro idx e (Rule_Code r0)
                  (errToCode_hashable rs idx e _ Hidx Hfound) Hfound) as Henc.
    destruct (decide (Rule_Code r0 = 0%Z)) as [Hz|Hnz].
    + rewrite Hz in Henc.
      rewrite (Translate_zero _ e (messageOf idx 0%Z)) in Hw by done.
      injection Hw as _ Hh. by destruct (Pos.succ_discr h).
    + rewrite (Translate_nonzero _ e (Rule_Code r0)
                 (messageOf idx (Rule_Code r0))) in Hw by done.
      simpl in Hw. injection Hw as <-. simpl in Hcw, Hew.
      injection Hcw as Hcode. injection Hew as Hmsg.
      simpl. rewrite Hcode. split; [done|].
      rewrite Hcode in Hmsg. by rewrite Hm, <- Hof, Hmsg.
Qed.

(** C3, amended.  The identity check precedes the predicates.  Let [r] be
    a rule that lists [e], with [e] equal to itself under [==].  Whatever
    the predicates of the rule set do on [e] (none of them is called),
    the default classifier returns the code and the message of [r] on [e]
    provided that (and only then) the last rule listing [e] bears the
    code of [r] and the last rule bearing that code has the message of
    [r]. *)
Theorem identity_before_predicates ro rs r (enc : EncoderFunc E) e :
  newDefaultEncoder ro rs = Ok enc →
  r ∈ rs → e ∈ Rule_Errors r →
  reflexive e = true →
  (Rule_Code <$> lastRule (λ r', e ∈ Rule_Errors r') rs = Some (Rule_Code r) ∧
   Rule_Message <$> lastRule (λ r', Rule_Code r' = Rule_Code r) rs
     = Some (Rule_Message r))
  ↔ enc e = Ok (Rule_Code r, Rule_Message r).
Proof.
  intros (idx & Hidx & ->)%newDefaultEncoder_Ok Hr He Hrefl. split.
  - intros [Hcode Hmsg]. by apply (defaultEncoder_listed ro rs).
  - destruct (lastRule (λ r', e ∈ Rule_Errors r') rs) as [r0|] eqn:Hlast;
      [|by destruct (proj1 (lastRule_None _ rs) Hlast r Hr)].
    destruct (messageOf_known rs idx r Hidx Hr) as (m & Hm & Hof).
    assert (errToCode idx !! e = Some (Rule_Code r0)) as Hfound.
    { by rewrite (errToCode_lastRule rs idx e Hidx), Hrefl, Hlast. }
    rewrite (defaultEncoder_known ro idx e (Rule_Code r0)
               (errToCode_hashable rs idx e _ Hidx Hfound) Hfound).
    intros [= Hcode Hmsg]. simpl. rewrite Hcode. split; [done|].
    rewrite Hcode in Hmsg. by rewrite Hm, <- Hof, Hmsg.
Qed.

(** C4.  Unwrap fidelity.  When the classifier returns a non-zero code on
    [e] (and the translator returns), [Translate] returns a classified
    error with that code whose [Unwrap()] is [e] itself: [e] is the next
    element of its unwrap chain. *)
Theorem Translate_unwrap d e c msg translated h :
  encoder d e = Ok (c, msg) → c ≠ 0%Z →
  msgTranslator d msg = Ok translated →
  ∃ w, Translate d e h = Ok (w, Pos.succ h) ∧
       Code w = Some c ∧ Unwrap w = Some e ∧
       unwrapChain w = w :: unwrapChain e ∧ e ∈ unwrapChain w.
Proof.
  intros Henc Hc Ht. exists (matchedError h c e translated). split.
  - rewrite (Translate_nonzero d e c msg) by done. by rewrite Ht.
  - do 3 (split; [done|]). simpl. right. destruct e; by left.
Qed.

(** C5.  An encoder given with the [Encoder] option replaces the default
    one: the decoder [New(R, Encoder(f))] holds [f] and the default
    translator, it classifies every error as [f] does, and the results of
    [Translate] are the same for every rule set (and every visiting order
    of the matcher map). *)
Theorem Encoder_replaces_default ro rs (f : EncoderFunc E) d :
  New ro rs [Encoder f] = Ok d →
  d = {| encoder := f; msgTranslator := defaultMessageTranslator |} ∧
  (∀ e, encoder d e = f e) ∧
  (∀ ro' rs' d', New ro' rs' [Encoder f] = Ok d' →
     ∀ e h, Translate d' e h = Translate d e h).
Proof.
  assert (∀ ro1 rs1 d1, New ro1 rs1 [Encoder f] = Ok d1 →
    d1 = {| encoder := f; msgTranslator := defaultMessageTranslator |}) as Hnew.
  { intros ro1 rs1 d1. unfold New. rewrite bind_Ok.
    by intros (enc & _ & [= <-]). }
  intros Hd. pose proof (Hnew _ _ _ Hd) as ->. split; [done|].
  split; [done|]. intros ro' rs' d' Hd' e h. by rewrite (Hnew _ _ _ Hd').
Qed.

(** C6.  A translator given with the [Message] option is applied to the
    message of a match and never on the pass-through path.  When the
    classifier returns code 0 on [e], [Translate] returns [e], whose text
    is the text of [e], whatever the translator is; when it returns a
    non-zero code and a message, the text of the classified error is the
    translator's result on that message. *)
Theorem Message_translates_matches_only d0 (t : MessageTranslatorFunc)
    d e c msg h :
  Message t d0 = Ok d → encoder d0 e = Ok (c, msg) →
  (c = 0%Z →
     ∃ w, Translate d e h = Ok (w, h) ∧ w = e ∧ Error w = Error e) ∧
  (c ≠ 0%Z → ∀ translated, t msg = Ok translated →
     ∃ w, Translate d e h = Ok (w, Pos.succ h) ∧ Error w = Ok translated).
Proof.
  intros [= <-] Henc. split.
  - intros ->. exists e. split; [|done]. by apply (Translate_zero _ e msg).
  - intros Hc translated Ht. exists (matchedError h c e translated).
    split; [|done]. rewrite (Translate_nonzero _ e c msg) by done.
    simpl. by rewrite Ht.
Qed.

(** C7, amended.  Last write wins.  After compilation, the message stored
    under a code is that of the last rule, in input order, bearing the
    code; the predicate stored under a code is that of the last rule
    bearing the code among the rules that declare a predicate (a rule
    without a predicate leaves the stored predicate in place). *)
Theorem newRuleIndex_last_write_wins rs idx c :
  newRuleIndex rs = Ok idx →
  codeToMessage idx !! c =
    Rule_Message <$> lastRule (λ r, Rule_Code r = c) rs ∧
  codeToMatcher idx !! c =
    lastRule (λ r, Rule_Code r = c ∧ is_Some (Rule_Match r)) rs ≫= Rule_Match.
Proof.
  intros Hidx. split.
  - by apply codeToMessage_lastRule.
  - by apply codeToMatcher_lastRule.
Qed.

(** C8.  The compiled index is well formed: every code that has a
    predicate, and every code some error value is mapped to, has a
    message; so has the code of every entry of the error map that no
    access reaches. *)
Theorem newRuleIndex_well_formed rs idx :
  newRuleIndex rs = Ok idx →
  (∀ c, is_Some (codeToMatcher idx !! c) → is_Some (codeToMessage idx !! c)) ∧
  (∀ e c, errToCode idx !! e = Some c → is_Some (codeToMessage idx !! c)) ∧
  (∀ e c, (e, c) ∈ unreachable (errToCode idx) →
          is_Some (codeToMessage idx !! c)).
Proof.
  intros Hidx.
  assert (∀ r, r ∈ rs → is_Some (codeToMessage idx !! Rule_Code r)) as Hmsg.
  { intros r Hr. rewrite (codeToMessage_lastRule rs idx _ Hidx).
    destruct (lastRule _ rs) as [r'|] eqn:Hlast; [by eexists|].
    by destruct (proj1 (lastRule_None _ rs) Hlast r Hr). }
  split.
  - intros c [f Hf].
    destruct (codeToMatcher_rule rs idx c f Hidx Hf) as (r & Hr & <- & _).
    by apply Hmsg.
  - split.
    + intros e c (_ & r & Hlast & <-)%(errToCode_Some rs idx); [|done].
      apply lastRule_Some in Hlast as [Hr _]. by apply Hmsg.
    + intros e c. rewrite (unreachable_deadEntries rs idx Hidx).
      rewrite elem_of_list_to_set_disj. unfold deadEntries.
      intros (r & Hin & Hr)%list_elem_of_bind.
      apply list_elem_of_fmap in Hin as (e' & [= _ ->] & _). by apply Hmsg.
Qed.

(** C9.  [Translate] does not panic on the nil error when the classifier
    returns on nil and the translator returns on the message the
    classifier gives; in particular for a decoder built with the default
    classifier and translator from rules whose predicates return on nil. *)
Theorem Translate_nil_returns :
  (∀ d h, returns (encoder d ErrNil) →
     (∀ c msg, encoder d ErrNil = Ok (c, msg) → returns (msgTranslator d msg)) →
     returns (Translate d ErrNil h)) ∧
  (∀ ro rs d h, New ro rs [] = Ok d →
     (∀ r f, r ∈ rs → Rule_Match r = Some f → returns (f ErrNil)) →
     returns (Translate d ErrNil h)).
Proof.
  assert (∀ d h, returns (encoder d ErrNil) →
     (∀ c msg, encoder d ErrNil = Ok (c, msg) → returns (msgTranslator d msg)) →
     returns (Translate d ErrNil h)) as Hgen.
  { intros d h [[c msg] Henc] Ht. destruct (decide (c = 0%Z)) as [->|Hc].
    - rewrite (Translate_zero d _ msg) by done. apply returns_Ok.
    - rewrite (Translate_nonzero d _ c msg) by done.
      destruct (Ht c msg Henc) as [translated ->]. apply returns_Ok. }
  split; [exact Hgen|].
  intros ro rs d h (idx & Hidx & ->)%New_default Hmatch. apply Hgen.
  - simpl. destruct (errToCode idx !! ErrNil) as [c|] eqn:Hc.
    + rewrite (defaultEncoder_known ro idx ErrNil c) by done.
      apply returns_Ok.
    + rewrite defaultEncoder_unknown by done.
      apply rangeMatchers_returns, Forall_forall. intros [c f] Hin.
      apply elem_of_range in Hin.
      destruct (codeToMatcher_rule rs idx c f Hidx Hin) as (r & Hr & _ & Hf).
      by apply (Hmatch r).
  - intros c msg _. apply returns_Ok.
Qed.

(** C10.  A rule with code 0 never produces a classified error.  Let [e]
    be listed by a rule [r] whose code is 0 and matched by no other rule:
    no other rule lists [e] and the predicates of the other rules return
    false on [e].  The default classifier returns code 0 on [e] and
    [Translate] returns [e] itself.  (The predicate of [r], when it has
    one, is called only if [e] is not equal to itself; it then has to
    return.) *)
Theorem code_zero_rule_passes_through ro pre r post d e h :
  New ro (pre ++ r :: post) [] = Ok d →
  Rule_Code r = 0%Z → e ∈ Rule_Errors r →
  (∀ r', r' ∈ pre ++ post → e ∉ Rule_Errors r') →
  (∀ r' f, r' ∈ pre ++ post → Rule_Match r' = Some f → f e = Ok false) →
  (reflexive e = true ∨ ∀ f, Rule_Match r = Some f → returns (f e)) →
  (∃ msg, encoder d e = Ok (0%Z, msg)) ∧ Translate d e h = Ok (e, h).
Proof.
  intros (idx & Hidx & ->)%New_default Hc He Hlist Hpred Hown.
  assert (∀ r', r' ∈ pre ++ r :: post → r' = r ∨ r' ∈ pre ++ post) as Hsplit.
  { intros r' [Hin|[->|Hin]%elem_of_cons]%elem_of_app.
    - right. apply elem_of_app. by left.
    - by left.
    - right. apply elem_of_app. by right. }
  assert (r ∈ pre ++ r :: post) as Hr
    by (apply elem_of_app; right; by left).
  assert (hashable e = true) as Hhash.
  { assert (hashableRules (pre ++ r :: post)) as Hrs
      by (apply newRuleIndex_returns; by exists idx).
    by apply (Hrs r). }
  assert (∃ msg, defaultEncoder ro idx e = Ok (0%Z, msg)) as [msg Henc].
  { destruct (errToCode idx !! e) as [c|] eqn:Hfound.
    - exists (messageOf idx 0%Z).
      destruct (errToCode_Some _ idx e c Hidx Hfound) as (_ & r0 & Hlast & <-).
      apply lastRule_Some in Hlast as [Hr0 He0].
      destruct (Hsplit r0 Hr0) as [->|Hother];
        [|by destruct (Hlist r0 Hother)].
      rewrite Hc in Hfound. by apply defaultEncoder_known.
    - rewrite defaultEncoder_unknown by done.
      apply rangeMatchers_code_zero, Forall_forall. intros [c f] Hin.
      apply elem_of_range in Hin.
      destruct (codeToMatcher_rule _ idx c f Hidx Hin) as (r' & Hr' & <- & Hf).
      simpl. destruct (Hsplit r' Hr') as [->|Hother].
      + right. split; [done|]. destruct Hown as [Hrefl|Hown]; [|by apply Hown].
        rewrite (errToCode_lastRule _ idx e Hidx), Hrefl in Hfound.
        destruct (lastRule (λ r0, e ∈ Rule_Errors r0) (pre ++ r :: post))
          as [r0|] eqn:Hlast; [done|].
        by destruct (proj1 (lastRule_None _ _) Hlast r Hr).
      + left. by apply (Hpred r'). }
  split; [by exists msg|]. by apply (Translate_zero _ e msg).
Qed.

End Properties.

(** * Further properties of the code *)

Section Coverage.
Context {E : Type} `{Countable E} `{ErrorValue E}.
Implicit Types (e err : error E) (r rule : Rule E) (rs : list (Rule E)).
Implicit Types (idx : ruleIndex E) (d : Decoder E) (ro : RangeOrder E).
Implicit Types (h : addr) (c code : Z) (msg : string).

(** ** The loop over the matchers *)

Lemma rangeMatchers_Ok idx (entries : list (Z * MatcherFunc E)) e c msg :
  rangeMatchers idx entries e = Ok (c, msg) →
  (c = 0%Z ∧ msg = "" ∧ Forall (λ entry, entry.2 e = Ok false) entries) ∨
  (∃ f, (c, f) ∈ entries ∧ f e = Ok true ∧ msg = messageOf idx c).
Proof.
  induction entries as [|[c' f'] entries IH]; simpl.
  - intros [= <- <-]. by left.
  - destruct (f' e) as [[|]|] eqn:Hf; simpl; [| |done].
    + intros [= <- <-]. right. exists f'. split; [by left|done].
    + intros [(Hc & Hmsg & Hall)|(f & Hin & Hf' & Hmsg)]%IH.
      * left. split; [done|]. split; [done|]. by constructor.
      * right. exists f. split; [by right|done].
Qed.

(** One code is accepted, every entry of another code rejects: the loop
    returns that code wherever its entry stands. *)
Lemma rangeMatchers_accept idx (entries : list (Z * MatcherFunc E)) e c :
  (∃ f, (c, f) ∈ entries) →
  Forall (λ entry, entry.2 e = Ok (bool_decide (entry.1 = c))) entries →
  rangeMatchers idx entries e = Ok (c, messageOf idx c).
Proof.
  induction entries as [|[c' f'] entries IH]; intros (f & Hin) Hall.
  - by apply elem_of_nil in Hin.
  - apply Forall_cons in Hall as [Hhead Hall]. simpl in *. rewrite Hhead.
    simpl. case_bool_decide as Hc; [by subst|].
    apply IH; [|done]. exists f.
    apply elem_of_cons in Hin as [[= ? ?]|Hin]; [congruence|done].
Qed.

(** ** The default classifier *)

(** X1.  The default classifier invents nothing.  When it returns a code
    and a message on [e], either this is the final [0, ""], every stored
    predicate returns false on [e] and no rule lists [e] unless [e] is not
    equal to itself; or some rule bears the code and either lists [e],
    which is equal to itself, or has a predicate that returns true on
    [e], and the message is that of the last rule bearing the code. *)
Theorem defaultEncoder_sound ro rs (enc : EncoderFunc E) e c msg :
  newDefaultEncoder ro rs = Ok enc → enc e = Ok (c, msg) →
  (c = 0%Z ∧ msg = "" ∧
   (∀ r, r ∈ rs → e ∈ Rule_Errors r → reflexive e = false) ∧
   (∀ c' f,
      lastRule (λ r, Rule_Code r = c' ∧ is_Some (Rule_Match r)) rs
        ≫= Rule_Match = Some f →
      f e = Ok false)) ∨
  (∃ r, r ∈ rs ∧ Rule_Code r = c ∧
        (e ∈ Rule_Errors r ∧ reflexive e = true ∨
         ∃ f, Rule_Match r = Some f ∧ f e = Ok true) ∧
        Rule_Message <$> lastRule (λ r', Rule_Code r' = c) rs = Some msg).
Proof.
  intros (idx & Hidx & ->)%newDefaultEncoder_Ok.
  unfold defaultEncoder, mapaccess2.
  destruct (hashable e) eqn:He; [|done]. simpl.
  destruct (errToCode idx !! e) as [c0|] eqn:Hc0.
  - intros [= <- <-]. right.
    destruct (errToCode_Some rs idx e c0 Hidx Hc0) as (Hrefl & r & Hlast & <-).
    apply lastRule_Some in Hlast as [Hr Hin].
    exists r. split; [done|]. split; [done|]. split; [by left|].
    by destruct (messageOf_known rs idx r Hidx Hr) as (msg & -> & ->).
  - intros [(-> & -> & Hall)|(f & Hin & Hf & ->)]%rangeMatchers_Ok.
    + left. split; [done|]. split; [done|]. split.
      * intros r Hr Hin. rewrite (errToCode_lastRule rs idx e Hidx) in Hc0.
        destruct (reflexive e); [|done].
        destruct (lastRule (λ r0, e ∈ Rule_Errors r0) rs) as [r0|] eqn:Hlast;
          [done|].
        by destruct (proj1 (lastRule_None _ rs) Hlast r Hr).
      * intros c' f Hf. rewrite <- (codeToMatcher_lastRule rs idx c' Hidx) in Hf.
        apply (elem_of_range ro) in Hf.
        by apply (proj1 (Forall_forall _ _) Hall (c', f)).
    + right. apply elem_of_range in Hin.
      destruct (codeToMatcher_rule rs idx c f Hidx Hin) as (r & Hr & <- & Hm).
      exists r. split; [done|]. split; [done|]. split; [right; by exists f|].
      by destruct (messageOf_known rs idx r Hidx Hr) as (msg & -> & ->).
Qed.

(** X2.  Predicate rules.  Let [e] be a comparable error that no rule
    lists, and [r] a rule with a predicate and a non-zero code, such that
    the predicates of the rules bearing the code of [r] return true on [e]
    and all other predicates return false.  For every visiting order of
    the matcher map, the decoder built with the defaults translates [e] to
    a classified error with the code of [r] and the message of the last
    rule bearing that code. *)
Theorem Translate_predicate_match ro rs r (f : MatcherFunc E) d e h :
  New ro rs [] = Ok d → hashable e = true →
  (∀ r', r' ∈ rs → e ∉ Rule_Errors r') →
  r ∈ rs → Rule_Match r = Some f → Rule_Code r ≠ 0%Z →
  (∀ r' f', r' ∈ rs → Rule_Match r' = Some f' →
     f' e = Ok (bool_decide (Rule_Code r' = Rule_Code r))) →
  ∃ msg,
    Rule_Message <$> lastRule (λ r', Rule_Code r' = Rule_Code r) rs = Some msg ∧
    Translate d e h = Ok (matchedError h (Rule_Code r) e msg, Pos.succ h).
Proof.
  intros (idx & Hidx & ->)%New_default He Hlist Hr Hf Hc Hpred.
  destruct (messageOf_known rs idx r Hidx Hr) as (msg & Hmsg & Hof).
  exists msg. split; [done|].
  rewrite (Translate_nonzero _ e (Rule_Code r) msg); [done| |done].
  simpl. rewrite defaultEncoder_unknown; [|done|].
  - rewrite <- Hof. apply rangeMatchers_accept.
    + destruct (codeToMatcher idx !! Rule_Code r) as [f0|] eqn:Hf0.
      * exists f0. by apply elem_of_range.
      * rewrite (codeToMatcher_lastRule rs idx _ Hidx) in Hf0.
        destruct (lastRule (λ r', Rule_Code r' = Rule_Code r ∧
                                  is_Some (Rule_Match r')) rs)
          as [r0|] eqn:Hlast.
        -- apply lastRule_Some in Hlast as [_ HP]. simpl in HP.
           destruct HP as [_ [f0 Hm]]. simpl in Hf0. congruence.
        -- destruct (proj1 (lastRule_None _ rs) Hlast r Hr).
           split; [done|by eexists].
    + apply Forall_forall. intros [c' f'] Hin. apply elem_of_range in Hin.
      destruct (codeToMatcher_rule rs idx c' f' Hidx Hin) as (r' & Hr' & <- & Hm).
      by apply (Hpred r').
  - by apply (errToCode_unlisted rs).
Qed.

(** The entry visited first wins when its matcher accepts. *)
Lemma defaultEncoder_front idx e c (f : MatcherFunc E) :
  hashable e = true → errToCode idx !! e = None →
  codeToMatcher idx !! c = Some f → f e = Ok true →
  defaultEncoder (frontOrder c) idx e = Ok (c, messageOf idx c).
Proof.
  intros He Hnone Hc Hf. rewrite defaultEncoder_unknown by done.
  simpl. unfold frontRange. rewrite Hc. simpl. by rewrite Hf.
Qed.

(** X3.  Overlapping predicates.  When no rule lists the comparable error
    [e] and the predicates of the rules bearing two distinct codes all
    return true on [e], the code returned by the default classifier
    depends on the order in which the matcher map is visited: one order
    gives the first code, another gives the second. *)
Theorem overlapping_predicates_depend_on_order rs r1 r2
    (f1 f2 : MatcherFunc E) e :
  hashableRules rs → hashable e = true →
  (∀ r, r ∈ rs → e ∉ Rule_Errors r) →
  r1 ∈ rs → Rule_Match r1 = Some f1 →
  r2 ∈ rs → Rule_Match r2 = Some f2 →
  Rule_Code r1 ≠ Rule_Code r2 →
  (∀ r f, r ∈ rs → Rule_Match r = Some f →
     Rule_Code r = Rule_Code r1 ∨ Rule_Code r = Rule_Code r2 →
     f e = Ok true) →
  ∃ ro1 ro2 (enc1 enc2 : EncoderFunc E) msg1 msg2,
    newDefaultEncoder ro1 rs = Ok enc1 ∧ newDefaultEncoder ro2 rs = Ok enc2 ∧
    enc1 e = Ok (Rule_Code r1, msg1) ∧ enc2 e = Ok (Rule_Code r2, msg2).
Proof.
  intros [idx Hidx]%newRuleIndex_returns He Hlist Hr1 Hf1 Hr2 Hf2 _ Hacc.
  assert (errToCode idx !! e = None) as Hnone.
  { by apply (errToCode_unlisted rs). }
  assert (∀ r f, r ∈ rs → Rule_Match r = Some f →
            Rule_Code r = Rule_Code r1 ∨ Rule_Code r = Rule_Code r2 →
            ∃ f0, codeToMatcher idx !! Rule_Code r = Some f0 ∧ f0 e = Ok true)
    as Hstored.
  { intros r f Hr Hf Hcode.
    rewrite (codeToMatcher_lastRule rs idx _ Hidx).
    destruct (lastRule _ rs) as [r0|] eqn:Hlast.
    - apply lastRule_Some in Hlast as [Hr0 HP]. simpl in HP.
      destruct HP as [Hc0 [f0 Hm0]]. exists f0. split; [done|]. apply (Hacc r0); [done..|].
      rewrite Hc0. done.
    - destruct (proj1 (lastRule_None _ rs) Hlast r Hr).
      split; [done|by eexists]. }
  destruct (Hstored r1 f1 Hr1 Hf1 (or_introl eq_refl)) as (g1 & Hg1 & Hacc1).
  destruct (Hstored r2 f2 Hr2 Hf2 (or_intror eq_refl)) as (g2 & Hg2 & Hacc2).
  exists (frontOrder (Rule_Code r1)), (frontOrder (Rule_Code r2)).
  exists (defaultEncoder (frontOrder (Rule_Code r1)) idx).
  exists (defaultEncoder (frontOrder (Rule_Code r2)) idx).
  exists (messageOf idx (Rule_Code r1)), (messageOf idx (Rule_Code r2)).
  split; [apply newDefaultEncoder_Ok; by exists idx|].
  split; [apply newDefaultEncoder_Ok; by exists idx|].
  split; by eapply defaultEncoder_front.
Qed.

(** X6.  With the default classifier, [Translate] panics on every error
    value that Go cannot compare, whatever the rules list and whatever
    their predicates would answer: the map access comes first. *)
Theorem Translate_unhashable_panics ro rs (enc : EncoderFunc E) d e h :
  newDefaultEncoder ro rs = Ok enc → encoder d = enc →
  hashable e = false →
  Translate d e h = Panic.
Proof.
  intros (idx & _ & ->)%newDefaultEncoder_Ok Hd He. unfold Translate.
  by rewrite Hd, defaultEncoder_unhashable.
Qed.

(** ** Translate *)

(** The outcomes of [Translate].  When it returns, the result is the
    input itself, with nothing allocated and a classifier code 0, or a
    newly allocated classified error that carries the non-zero code of the
    classifier, the translated message and the input as its cause.  It
    panics only when the classifier panics, or the translator panics on
    the message of a match. *)
Theorem Translate_outcomes d e h :
  match Translate d e h with
  | Ok (w, h') =>
      (w = e ∧ h' = h ∧ ∃ msg, encoder d e = Ok (0%Z, msg)) ∨
      (∃ c msg translated,
         encoder d e = Ok (c, msg) ∧ c ≠ 0%Z ∧
         msgTranslator d msg = Ok translated ∧
         w = matchedError h c e translated ∧ h' = Pos.succ h)
  | Panic =>
      encoder d e = Panic ∨
      (∃ c msg, encoder d e = Ok (c, msg) ∧ c ≠ 0%Z ∧
                msgTranslator d msg = Panic)
  end.
Proof.
  unfold Translate. destruct (encoder d e) as [[c msg]|]; simpl; [|by left].
  case_decide as Hc.
  - left. subst c. split; [done|]. split; [done|]. by exists msg.
  - destruct (msgTranslator d msg) as [translated|] eqn:Ht; simpl.
    + right. by exists c, msg, translated.
    + right. by exists c, msg.
Qed.

(** ** Options *)

Lemma applyOptions_app (opts1 opts2 : list (Option E)) d :
  applyOptions (opts1 ++ opts2) d = applyOptions opts1 d ≫= applyOptions opts2.
Proof.
  revert d. induction opts1 as [|o opts1 IH]; intros d; simpl; [done|].
  destruct (o d) as [d'|]; simpl; [apply IH|done].
Qed.

Lemma New_app ro rs (opts1 opts2 : list (Option E)) :
  New ro rs (opts1 ++ opts2) = New ro rs opts1 ≫= applyOptions opts2.
Proof.
  unfold New. destruct (newDefaultEncoder ro rs) as [enc|]; simpl; [|done].
  apply applyOptions_app.
Qed.

Lemma applyOptions_builtin_returns (opts : list (Option E)) d :
  Forall builtinOption opts → returns (applyOptions opts d).
Proof.
  intros Hopts. revert d.
  induction Hopts as [|o opts Ho _ IH]; intros d; simpl.
  - apply returns_Ok.
  - destruct Ho as [t|enc]; simpl; apply IH.
Qed.

(** X4.  Options are applied in order and the last one of a kind wins: a
    final [Encoder(f)] sets the classifier and keeps the translator of the
    options before it, a final [Message(t)] sets the translator and keeps
    the classifier, and the two kinds commute. *)
Theorem options_compose ro rs (opts : list (Option E)) (f : EncoderFunc E)
    (t : MessageTranslatorFunc) :
  (∀ d, New ro rs (opts ++ [Encoder f]) = Ok d →
     encoder d = f ∧
     ∃ d', New ro rs opts = Ok d' ∧ msgTranslator d = msgTranslator d') ∧
  (∀ d, New ro rs (opts ++ [Message t]) = Ok d →
     msgTranslator d = t ∧
     ∃ d', New ro rs opts = Ok d' ∧ encoder d = encoder d') ∧
  New ro rs (opts ++ [Message t; Encoder f])
    = New ro rs (opts ++ [Encoder f; Message t]).
Proof.
  split; [|split].
  - intros d. rewrite New_app. intros (d' & Hd' & [= <-])%bind_Ok.
    split; [done|]. by exists d'.
  - intros d. rewrite New_app. intros (d' & Hd' & [= <-])%bind_Ok.
    split; [done|]. by exists d'.
  - rewrite !New_app. by destruct (New ro rs opts).
Qed.

(** X5.  Construction with the package's options returns exactly when
    every known error of every rule is comparable; it panics on a rule
    that lists a value Go cannot hash, also when an [Encoder] option
    replaces the default classifier. *)
Theorem New_returns_iff ro rs (opts : list (Option E)) :
  Forall builtinOption opts →
  (returns (New ro rs opts) ↔ hashableRules rs).
Proof.
  intros Hopts. rewrite <- newRuleIndex_returns. unfold New, newDefaultEncoder.
  destruct (newRuleIndex rs) as [idx|]; simpl.
  - split; intros _; [apply returns_Ok|].
    by apply applyOptions_builtin_returns.
  - split; by intros [? ?].
Qed.

(** ** The index *)

(** X7.  What an access to the compiled error map finds.  Under a key
    that is equal to itself: the code of the last rule, in input order,
    that lists it, also when the rules that list it bear different codes,
    and nothing when no rule lists it.  Under a key that is not equal to
    itself: nothing, whatever the rules list; every listing of such a key
    has left one entry that no access reaches. *)
Theorem newRuleIndex_error_last_wins rs idx e :
  newRuleIndex rs = Ok idx →
  errToCode idx !! e =
    (if reflexive e
     then Rule_Code <$> lastRule (λ r, e ∈ Rule_Errors r) rs
     else None) ∧
  (errToCode idx !! e = None ↔
     reflexive e = false ∨ ∀ r, r ∈ rs → e ∉ Rule_Errors r) ∧
  unreachable (errToCode idx) = list_to_set_disj (deadEntries rs).
Proof.
  intros Hidx. split; [by apply errToCode_lastRule|].
  split; [|by apply unreachable_deadEntries].
  rewrite (errToCode_lastRule rs idx e Hidx).
  rewrite <- (lastRule_None (λ r, e ∈ Rule_Errors r) rs).
  destruct (reflexive e); [|by split; [left|]].
  destruct (lastRule _ rs); split; try done; [by intros [?|?]|by right].
Qed.

Lemma lastRule_unique (P : Rule E → Prop) `{∀ r, Decision (P r)} rs r :
  (∀ r1 r2, r1 ∈ rs → r2 ∈ rs → P r1 → P r2 → r1 = r2) →
  r ∈ rs → P r → lastRule P rs = Some r.
Proof.
  intros Huniq Hr HP. destruct (lastRule P rs) as [r0|] eqn:Hlast.
  - apply lastRule_Some in Hlast as [Hr0 HP0]. f_equal. by apply Huniq.
  - by destruct (proj1 (lastRule_None P rs) Hlast r Hr).
Qed.

Lemma lastRule_perm (P : Rule E → Prop) `{∀ r, Decision (P r)} rs rs' :
  (∀ r1 r2, r1 ∈ rs → r2 ∈ rs → P r1 → P r2 → r1 = r2) →
  rs ≡ₚ rs' → lastRule P rs' = lastRule P rs.
Proof.
  intros Huniq Hperm. destruct (lastRule P rs) as [r|] eqn:Hlast.
  - apply lastRule_Some in Hlast as [Hr HP]. apply lastRule_unique.
    + intros r1 r2 Hr1 Hr2. rewrite <- Hperm in Hr1, Hr2. by apply Huniq.
    + by rewrite <- Hperm.
    + done.
  - apply lastRule_None. intros r Hr. rewrite <- Hperm in Hr.
    by apply (proj1 (lastRule_None P rs) Hlast).
Qed.

(** X8.  The order of the rules matters on conflicts only: when no two
    distinct rules share a code or a known error, every reordering of the
    rules compiles to the same index (or panics alike), hence to the same
    default classifier. *)
Theorem newRuleIndex_order_irrelevant rs rs' :
  conflictFree rs → rs ≡ₚ rs' →
  newRuleIndex rs' = newRuleIndex rs ∧
  ∀ ro, newDefaultEncoder ro rs' = newDefaultEncoder ro rs.
Proof.
  intros Hfree Hperm.
  assert (newRuleIndex rs' = newRuleIndex rs) as Heq.
  { assert (hashableRules rs ↔ hashableRules rs') as Hhash.
    { unfold hashableRules. split; intros Hall r e Hr.
      - rewrite <- Hperm in Hr. by apply Hall.
      - rewrite Hperm in Hr. by apply Hall. }
    destruct (newRuleIndex rs) as [idx|] eqn:Hidx,
             (newRuleIndex rs') as [idx'|] eqn:Hidx'.
    - f_equal.
      pose proof (λ c, codeToMessage_lastRule rs idx c Hidx) as Hmsg.
      pose proof (λ c, codeToMessage_lastRule rs' idx' c Hidx') as Hmsg'.
      pose proof (λ c, codeToMatcher_lastRule rs idx c Hidx) as Hmat.
      pose proof (λ c, codeToMatcher_lastRule rs' idx' c Hidx') as Hmat'.
      pose proof (λ e, entries_lastRule rs idx e Hidx) as Herr.
      pose proof (λ e, entries_lastRule rs' idx' e Hidx') as Herr'.
      pose proof (unreachable_deadEntries rs idx Hidx) as Hdead.
      pose proof (unreachable_deadEntries rs' idx' Hidx') as Hdead'.
      destruct idx as [m1 m2 [m3 u3]], idx' as [m1' m2' [m3' u3']].
      simpl in *.
      f_equal; [apply map_eq|apply map_eq|f_equal; [apply map_eq|]].
      + intros c. rewrite Hmat, Hmat'. f_equal. apply lastRule_perm; [|done].
        intros r1 r2 Hr1 Hr2 [Hc1 _] [Hc2 _]. apply Hfree; [done..|].
        left. congruence.
      + intros c. rewrite Hmsg, Hmsg'. f_equal. apply lastRule_perm; [|done].
        intros r1 r2 Hr1 Hr2 Hc1 Hc2. apply Hfree; [done..|].
        left. congruence.
      + intros e. rewrite Herr, Herr'. destruct (reflexive e); [|done].
        f_equal. apply lastRule_perm; [|done].
        intros r1 r2 Hr1 Hr2 He1 He2. apply Hfree; [done..|].
        right. by exists e.
      + rewrite Hdead, Hdead'. unfold deadEntries. by rewrite Hperm.
    - assert (returns (newRuleIndex rs')) as [? ?]; [|congruence].
      apply newRuleIndex_returns, Hhash, newRuleIndex_returns.
      rewrite Hidx. apply returns_Ok.
    - assert (returns (newRuleIndex rs)) as [? ?]; [|congruence].
      apply newRuleIndex_returns, Hhash, newRuleIndex_returns.
      rewrite Hidx'. apply returns_Ok.
    - done. }
  split; [done|]. intros ro. unfold newDefaultEncoder. by rewrite Heq.
Qed.

Lemma lastRule_skip (P : Rule E → Prop) `{∀ r, Decision (P r)} rs1 r rs2 :
  ¬ P r → lastRule P (rs1 ++ r :: rs2) = lastRule P (rs1 ++ rs2).
Proof.
  intros HP. unfold lastRule.
  by rewrite !filter_app, filter_cons_False.
Qed.

(** The loop reads the message map at the codes of the entries only. *)
Lemma rangeMatchers_messages idx idx' (entries : list (Z * MatcherFunc E)) e :
  Forall (λ entry, messageOf idx' entry.1 = messageOf idx entry.1) entries →
  rangeMatchers idx' entries e = rangeMatchers idx entries e.
Proof.
  induction 1 as [|[c f] entries Hc _ IH]; simpl in *; [done|].
  destruct (f e) as [[|]|]; simpl; [by rewrite Hc|done|done].
Qed.

(** X9.  A rule with no known error and no predicate, under a code that
    no other rule bears, classifies nothing and disturbs nothing: with or
    without it, at any position, the default classifier gives the same
    outcome on every error. *)
Theorem inert_rule_changes_nothing ro rs1 r rs2 (enc enc' : EncoderFunc E) :
  Rule_Errors r = [] → Rule_Match r = None →
  (∀ r', r' ∈ rs1 ++ rs2 → Rule_Code r' ≠ Rule_Code r) →
  newDefaultEncoder ro (rs1 ++ rs2) = Ok enc →
  newDefaultEncoder ro (rs1 ++ r :: rs2) = Ok enc' →
  ∀ e, enc' e = enc e.
Proof.
  intros Herrs Hmatch Hfresh (idx & Hidx & ->)%newDefaultEncoder_Ok
    (idx' & Hidx' & ->)%newDefaultEncoder_Ok e.
  assert (∀ k, errToCode idx' !! k = errToCode idx !! k) as Herr.
  { intros k.
    rewrite (errToCode_lastRule _ idx' k Hidx'), (errToCode_lastRule _ idx k Hidx).
    destruct (reflexive k); [|done].
    f_equal. apply lastRule_skip. rewrite Herrs. apply not_elem_of_nil. }
  assert (codeToMatcher idx' = codeToMatcher idx) as Hmat.
  { apply map_eq. intros c.
    rewrite (codeToMatcher_lastRule _ idx' c Hidx'),
      (codeToMatcher_lastRule _ idx c Hidx).
    f_equal. apply lastRule_skip. rewrite Hmatch. by intros [_ [? ?]]. }
  assert (∀ r', r' ∈ rs1 ++ rs2 →
            messageOf idx' (Rule_Code r') = messageOf idx (Rule_Code r'))
    as Hmsg.
  { intros r' Hr'. unfold messageOf.
    rewrite (codeToMessage_lastRule _ idx' _ Hidx'),
      (codeToMessage_lastRule _ idx _ Hidx).
    do 2 f_equal. apply lastRule_skip. intros Hc. by apply (Hfresh r'). }
  unfold defaultEncoder, mapaccess2. rewrite Herr, Hmat.
  destruct (hashable e); [|done]. simpl.
  destruct (errToCode idx !! e) as [c|] eqn:Hc.
  - destruct (errToCode_Some _ idx e c Hidx Hc) as (_ & r' & Hlast & <-).
    apply lastRule_Some in Hlast as [Hr' _].
    by rewrite (Hmsg r' Hr').
  - apply rangeMatchers_messages, Forall_forall. intros [c f] Hin.
    apply elem_of_range in Hin.
    destruct (codeToMatcher_rule _ idx c f Hidx Hin) as (r' & Hr' & <- & _).
    by apply Hmsg.
Qed.

End Coverage.

(** * The properties on the sample values *)

(** ** The cases of the package's tests *)

Example test_unclassified_value_is_returned :
  (New listOrder [clientRule; listRule] [] ≫=
     λ d, Translate d (ErrValue errUnclassified) 1)
  = Ok (ErrValue errUnclassified, 1%positive) ∧
  Error (ErrValue errUnclassified) = Ok "unclassified error".
Proof. split; [vm_compute|]; reflexivity. Qed.

Example test_error_value_match :
  (New listOrder [clientRule; listRule] [] ≫=
     λ d, Translate d (ErrValue errClient1) 1)
  = Ok (matchedError 1 1001 (ErrValue errClient1) "error.client", 2%positive).
Proof. vm_compute. reflexivity. Qed.

Example test_second_error_value_in_group :
  (New listOrder [clientRule; listRule] [] ≫=
     λ d, Translate d (ErrValue errClient2) 1)
  = Ok (matchedError 1 1001 (ErrValue errClient2) "error.client", 2%positive).
Proof. vm_compute. reflexivity. Qed.

Example test_configured_catch_all :
  (New listOrder [catchAllRule] [] ≫=
     λ d, Translate d (ErrValue errUnclassified) 1)
  = Ok (matchedError 1 1000 (ErrValue errUnclassified) "error.catchall",
        2%positive).
Proof. vm_compute. reflexivity. Qed.

Example test_unclassified_handling :
  (New listOrder [] [Encoder noneEncoder] ≫=
     λ d, Translate d (ErrValue errUnclassified) 1)
  = Ok (ErrValue errUnclassified, 1%positive).
Proof. vm_compute. reflexivity. Qed.

Example test_message_translator_option :
  (New listOrder [clientRule] [Message lookupTranslator] ≫=
     λ d, Translate d (ErrValue errClient1) 1)
  = Ok (matchedError 1 1001 (ErrValue errClient1) "Translated client error.",
        2%positive).
Proof. vm_compute. reflexivity. Qed.

(** A value of a type that Go cannot compare: the map access of the
    default classifier panics before the matcher of [listRule], which
    accepts the value, is reached.  A rule that lists such a value makes
    the construction panic. *)
Example slice_typed_error_panics :
  isList (ErrValue errList) = Ok true ∧
  (New listOrder [clientRule; listRule] [] ≫=
     λ d, Translate d (ErrValue errList) 1) = Panic ∧
  New listOrder
    [{| Rule_Code := 1004; Rule_Message := "error.list";
        Rule_Errors := [ErrValue errList]; Rule_Match := None |}] []
  = Panic.
Proof. split; [reflexivity|]. split; vm_compute; reflexivity. Qed.

(** A listed value that is not equal to itself: the map access of the
    default classifier does not find it.  With [nanRule] alone the value
    comes back as it is, although the rule lists it under code 1007; with
    a catch-all rule behind it the value is classified by the predicate.
    The index holds the entry of [nanRule] where no access reaches it. *)
Example nan_valued_error_is_never_found :
  (New listOrder [nanRule] [] ≫=
     λ d, Translate d (ErrValue errNaN) 1)
  = Ok (ErrValue errNaN, 1%positive) ∧
  (New listOrder [nanRule; catchAllRule] [] ≫=
     λ d, Translate d (ErrValue errNaN) 1)
  = Ok (matchedError 1 1000 (ErrValue errNaN) "error.catchall",
        2%positive) ∧
  (newRuleIndex [nanRule; nanRule] ≫=
     λ idx, Ok (errToCode idx !! ErrValue errNaN,
                unreachable (errToCode idx)))
  = Ok (None,
        {[+ (ErrValue errNaN, 1007%Z); (ErrValue errNaN, 1007%Z) +]}).
Proof.
  split; [vm_compute; reflexivity|]. split; [vm_compute; reflexivity|].
  simpl. by f_equal.
Qed.

(** ** The properties at sample values *)

(** C1.  The claim: an error value [e] that no rule lists and on which
    every predicate of the rules returns false is returned by [Translate]
    unchanged, and so says the comment of [Translate] (an error that
    cannot be classified is returned as-is).  The code does not, on a
    value that Go cannot compare: no rule of [clientRule] lists the
    slice-typed [errList] and the rule set has no predicate, the
    construction returns a decoder, and its [Translate] panics on
    [errList], at the map access of the default classifier. *)
Theorem Translate_unclassified_uncomparable_panics :
  (∀ r, r ∈ [clientRule] → ErrValue errList ∉ Rule_Errors r) ∧
  (∀ r f, r ∈ [clientRule] → Rule_Match r = Some f →
          f (ErrValue errList) = Ok false) ∧
  ∃ d, New listOrder [clientRule] [] = Ok d ∧
       encoder d (ErrValue errList) = Panic ∧
       ∀ h, Translate d (ErrValue errList) h = Panic.
Proof.
  split; [|split].
  - intros r Hr He. split_elem Hr. simpl in He. split_elem He.
  - intros r f Hr Hf. split_elem Hr. discriminate Hf.
  - destruct (New listOrder [clientRule] []) as [d|] eqn:Hd;
      [|by vm_compute in Hd].
    exists d. split; [reflexivity|].
    assert (encoder d (ErrValue errList) = Panic) as Henc.
    { vm_compute in Hd. injection Hd as <-. vm_compute. reflexivity. }
    split; [done|]. intros h. unfold Translate. by rewrite Henc.
Qed.

(** The pass-through on the comparable [errUnclassified] and the rules
    [clientRule; listRule]. *)
Lemma Translate_passthrough_witness :
  (New listOrder [clientRule; listRule] [] ≫=
     λ d, Translate d (ErrValue errUnclassified) 1%positive)
  = Ok (ErrValue errUnclassified, 1%positive).
Proof.
  unfold New.
  destruct (newDefaultEncoder listOrder [clientRule; listRule])
    as [enc|] eqn:Henc; [|by vm_compute in Henc].
  simpl.
  apply (proj2 Translate_passthrough listOrder [clientRule; listRule] enc);
    [exact Henc|reflexivity|reflexivity| |].
  - intros r Hr. split_elem Hr; simpl; intros He; split_elem He.
  - intros r f Hr Hf. split_elem Hr; simpl in Hf; [done|].
    injection Hf as <-. reflexivity.
Defined.

(** C2 on [errClient1] and [clientRule], in a rule set where [otherRule]
    lists the value under another code and [backRule], the last rule
    that lists it, under the code and the message of [clientRule]. *)
Lemma Translate_known_error_witness :
  ∃ w,
    (New listOrder [clientRule; otherRule; backRule] [] ≫=
       λ d, Translate d (ErrValue errClient1) 1%positive)
    = Ok (w, 2%positive) ∧
    Code w = Some 1001%Z ∧ Error w = Ok "error.client".
Proof.
  destruct (New listOrder [clientRule; otherRule; backRule] [])
    as [d|] eqn:Hd; [|by vm_compute in Hd].
  simpl.
  apply (proj1 (Translate_known_error listOrder
                  [clientRule; otherRule; backRule] clientRule d
                  (ErrValue errClient1) 1%positive Hd
                  ltac:(by left) ltac:(done) ltac:(by left) eq_refl)).
  split; vm_compute; reflexivity.
Defined.

(** C2 as stated fails: [clientRule] has a non-zero code and lists
    [errClient1], and the decoder built from [clientRule; otherRule]
    translates [errClient1] to the code and the message of [otherRule]. *)
Lemma Translate_known_error_counterexample :
  clientRule ∈ [clientRule; otherRule] ∧
  Rule_Code clientRule = 1001%Z ∧
  Rule_Message clientRule = "error.client" ∧
  Rule_Errors clientRule = [ErrValue errClient1; ErrValue errClient2] ∧
  (New listOrder [clientRule; otherRule] [] ≫=
     λ d, Translate d (ErrValue errClient1) 1%positive)
  = Ok (matchedError 1 1003 (ErrValue errClient1) "error.other", 2%positive).
Proof.
  split; [by left|]. do 3 (split; [reflexivity|]). vm_compute. reflexivity.
Qed.

(** C3 on [errClient1], which [clientRule] lists and the predicate of
    [catchAllRule] accepts. *)
Lemma identity_before_predicates_witness :
  always true (ErrValue errClient1) = Ok true ∧
  (newDefaultEncoder listOrder [clientRule; catchAllRule] ≫=
     λ enc, enc (ErrValue errClient1))
  = Ok (1001%Z, "error.client").
Proof.
  split; [reflexivity|].
  destruct (newDefaultEncoder listOrder [clientRule; catchAllRule])
    as [enc|] eqn:Henc; [|by vm_compute in Henc].
  simpl.
  apply (proj1 (identity_before_predicates listOrder
                  [clientRule; catchAllRule] clientRule enc
                  (ErrValue errClient1) Henc
                  ltac:(by left) ltac:(by left) eq_refl)).
  split; vm_compute; reflexivity.
Defined.

(** C3 as stated fails: [clientRule] lists [errClient1], the predicate of
    [sameCodeRule] accepts it, and the classifier returns the message of
    [sameCodeRule]. *)
Lemma identity_before_predicates_counterexample :
  ErrValue errClient1 ∈ Rule_Errors clientRule ∧
  Rule_Message clientRule = "error.client" ∧
  Rule_Match sameCodeRule = Some (always true) ∧
  always true (ErrValue errClient1) = Ok true ∧
  Rule_Message sameCodeRule = "error.catchall" ∧
  (newDefaultEncoder listOrder [clientRule; sameCodeRule] ≫=
     λ enc, enc (ErrValue errClient1))
  = Ok (1001%Z, "error.catchall").
Proof.
  split; [by left|]. do 4 (split; [reflexivity|]). vm_compute. reflexivity.
Qed.

(** C4 on [errUnclassified], which the predicate of [catchAllRule]
    accepts. *)
Lemma Translate_unwrap_witness :
  ∃ w,
    (New listOrder [clientRule; catchAllRule] [] ≫=
       λ d, Translate d (ErrValue errUnclassified) 1%positive)
    = Ok (w, 2%positive) ∧
    Code w = Some 1000%Z ∧ Unwrap w = Some (ErrValue errUnclassified) ∧
    unwrapChain w = w :: unwrapChain (ErrValue errUnclassified) ∧
    ErrValue errUnclassified ∈ unwrapChain w.
Proof.
  destruct (New listOrder [clientRule; catchAllRule] []) as [d|] eqn:Hd;
    [|by vm_compute in Hd].
  vm_compute in Hd. injection Hd as <-. simpl.
  apply (Translate_unwrap _ (ErrValue errUnclassified) 1000%Z
           "error.catchall" "error.catchall" 1%positive).
  - vm_compute. reflexivity.
  - done.
  - reflexivity.
Defined.

(** C5 on the rules [clientRule; catchAllRule] and [noneEncoder]. *)
Lemma Encoder_replaces_default_witness :
  ∃ d,
    New listOrder [clientRule; catchAllRule] [Encoder noneEncoder] = Ok d ∧
    d = {| encoder := noneEncoder;
           msgTranslator := defaultMessageTranslator |} ∧
    (∀ e, encoder d e = noneEncoder e) ∧
    (∀ ro' rs' d', New ro' rs' [Encoder noneEncoder] = Ok d' →
       ∀ e h, Translate d' e h = Translate d e h) ∧
    Translate d (ErrValue errClient1) 1 = Ok (ErrValue errClient1, 1%positive).
Proof.
  destruct (New listOrder [clientRule; catchAllRule] [Encoder noneEncoder])
    as [d|] eqn:Hd; [|by vm_compute in Hd].
  exists d. split; [reflexivity|].
  destruct (Encoder_replaces_default listOrder [clientRule; catchAllRule]
              noneEncoder d Hd) as (Hd' & Henc & Hrs).
  do 3 (split; [assumption|]). rewrite Hd'. reflexivity.
Defined.

(** C6 on [lookupTranslator]: [errUnclassified] passes through with its
    own text, [errClient1] gets the translated text. *)
Lemma Message_translates_matches_only_witness :
  ∃ d0 d,
    New listOrder [clientRule; listRule] [] = Ok d0 ∧
    Message lookupTranslator d0 = Ok d ∧
    (∃ w, Translate d (ErrValue errUnclassified) 1%positive
          = Ok (w, 1%positive) ∧
          w = ErrValue errUnclassified ∧ Error w = Ok "unclassified error") ∧
    (∃ w, Translate d (ErrValue errClient1) 1%positive = Ok (w, 2%positive) ∧
          Error w = Ok "Translated client error.").
Proof.
  destruct (New listOrder [clientRule; listRule] []) as [d0|] eqn:Hd0;
    [|by vm_compute in Hd0].
  exists d0, {| encoder := encoder d0; msgTranslator := lookupTranslator |}.
  split; [reflexivity|]. split; [reflexivity|].
  assert (encoder d0 (ErrValue errUnclassified) = Ok (0%Z, "")) as Hnone.
  { vm_compute in Hd0. injection Hd0 as <-. vm_compute. reflexivity. }
  assert (encoder d0 (ErrValue errClient1) = Ok (1001%Z, "error.client"))
    as Hclient.
  { vm_compute in Hd0. injection Hd0 as <-. vm_compute. reflexivity. }
  split.
  - exact (proj1 (Message_translates_matches_only d0 lookupTranslator _
                    (ErrValue errUnclassified) 0%Z "" 1 eq_refl Hnone)
             eq_refl).
  - apply (proj2 (Message_translates_matches_only d0 lookupTranslator _
                    (ErrValue errClient1) 1001%Z "error.client" 1
                    eq_refl Hclient)); [done|reflexivity].
Defined.

(** C7 on the code 1000 of [catchAllRule; renameRule; clientRule]: the
    message is that of [renameRule], the predicate that of [catchAllRule]. *)
Lemma newRuleIndex_last_write_wins_witness :
  ∃ idx,
    newRuleIndex [catchAllRule; renameRule; clientRule] = Ok idx ∧
    codeToMessage idx !! 1000%Z = Some "error.general" ∧
    codeToMatcher idx !! 1000%Z = Some (always true).
Proof.
  destruct (newRuleIndex [catchAllRule; renameRule; clientRule])
    as [idx|] eqn:Hidx; [|by vm_compute in Hidx].
  exists idx. split; [reflexivity|].
  exact (newRuleIndex_last_write_wins
           [catchAllRule; renameRule; clientRule] idx 1000%Z Hidx).
Defined.

(** C7 as stated fails: the last rule of [catchAllRule; renameRule] bears
    the code 1000 and declares no predicate, and the predicate stored
    under 1000 is that of [catchAllRule]. *)
Lemma newRuleIndex_last_write_wins_counterexample :
  last [catchAllRule; renameRule] = Some renameRule ∧
  Rule_Code renameRule = 1000%Z ∧
  Rule_Match renameRule = None ∧
  Rule_Match catchAllRule = Some (always true) ∧
  (newRuleIndex [catchAllRule; renameRule] ≫=
     λ idx, Ok (codeToMatcher idx !! 1000%Z))
  = Ok (Some (always true)).
Proof. do 4 (split; [reflexivity|]). vm_compute. reflexivity. Qed.

(** C8 on the index of [clientRule; nanRule; catchAllRule]. *)
Lemma newRuleIndex_well_formed_witness :
  ∃ idx,
    newRuleIndex [clientRule; nanRule; catchAllRule] = Ok idx ∧
    (∀ c, is_Some (codeToMatcher idx !! c) →
          is_Some (codeToMessage idx !! c)) ∧
    (∀ e c, errToCode idx !! e = Some c →
            is_Some (codeToMessage idx !! c)) ∧
    (∀ e c, (e, c) ∈ unreachable (errToCode idx) →
            is_Some (codeToMessage idx !! c)).
Proof.
  destruct (newRuleIndex [clientRule; nanRule; catchAllRule])
    as [idx|] eqn:Hidx; [|by vm_compute in Hidx].
  exists idx. split; [reflexivity|].
  exact (newRuleIndex_well_formed [clientRule; nanRule; catchAllRule]
           idx Hidx).
Defined.

(** C9 on the rules [clientRule; listRule], whose predicate returns on
    nil. *)
Lemma Translate_nil_returns_witness :
  returns (New listOrder [clientRule; listRule] [] ≫=
             λ d, Translate d ErrNil 1%positive).
Proof.
  destruct (New listOrder [clientRule; listRule] []) as [d|] eqn:Hd;
    [|by vm_compute in Hd].
  simpl.
  apply (proj2 Translate_nil_returns listOrder [clientRule; listRule] d
           1%positive Hd).
  intros r f Hr Hf. split_elem Hr; simpl in Hf; [done|].
  injection Hf as <-. apply returns_Ok.
Defined.

(** C10 on [errUnclassified], listed by [zeroRule] only. *)
Lemma code_zero_rule_passes_through_witness :
  (New listOrder [clientRule; zeroRule; listRule] [] ≫=
     λ d, Translate d (ErrValue errUnclassified) 1%positive)
  = Ok (ErrValue errUnclassified, 1%positive).
Proof.
  destruct (New listOrder [clientRule; zeroRule; listRule] [])
    as [d|] eqn:Hd; [|by vm_compute in Hd].
  simpl.
  apply (code_zero_rule_passes_through listOrder [clientRule] zeroRule
           [listRule] d (ErrValue errUnclassified) 1%positive Hd).
  - reflexivity.
  - left.
  - intros r' Hr' He. simpl in Hr'. split_elem Hr'; simpl in He;
      split_elem He.
  - intros r' f Hr' Hf. simpl in Hr'. split_elem Hr'; simpl in Hf; [done|].
    injection Hf as <-. reflexivity.
  - left. reflexivity.
Defined.

(** ** The further properties at sample values *)

(** X1 on [errClient1] and the rules [clientRule; catchAllRule]. *)
Lemma defaultEncoder_sound_witness :
  ∃ enc,
    newDefaultEncoder listOrder [clientRule; catchAllRule] = Ok enc ∧
    enc (ErrValue errClient1) = Ok (1001%Z, "error.client") ∧
    ∃ r, r ∈ [clientRule; catchAllRule] ∧ Rule_Code r = 1001%Z ∧
         (ErrValue errClient1 ∈ Rule_Errors r ∧
            reflexive (ErrValue errClient1) = true ∨
          ∃ f, Rule_Match r = Some f ∧ f (ErrValue errClient1) = Ok true) ∧
         Rule_Message <$>
           lastRule (λ r', Rule_Code r' = 1001%Z) [clientRule; catchAllRule]
         = Some "error.client".
Proof.
  destruct (newDefaultEncoder listOrder [clientRule; catchAllRule])
    as [enc|] eqn:Henc; [|by vm_compute in Henc].
  assert (enc (ErrValue errClient1) = Ok (1001%Z, "error.client")) as Hres.
  { vm_compute in Henc. injection Henc as <-. vm_compute. reflexivity. }
  exists enc. split; [reflexivity|]. split; [exact Hres|].
  destruct (defaultEncoder_sound listOrder [clientRule; catchAllRule] enc
              (ErrValue errClient1) 1001%Z "error.client" Henc Hres)
    as [(Hzero & _)|Hrule]; [discriminate Hzero|exact Hrule].
Defined.

(** X2 on [errUnclassified]: of the predicates of
    [clientRule; listRule; catchAllRule], only that of [catchAllRule]
    accepts it. *)
Lemma Translate_predicate_match_witness :
  (New listOrder [clientRule; listRule; catchAllRule] [] ≫=
     λ d, Translate d (ErrValue errUnclassified) 1)
  = Ok (matchedError 1 1000 (ErrValue errUnclassified) "error.catchall",
        2%positive).
Proof.
  destruct (New listOrder [clientRule; listRule; catchAllRule] [])
    as [d|] eqn:Hd; [|by vm_compute in Hd].
  simpl.
  destruct (Translate_predicate_match listOrder
              [clientRule; listRule; catchAllRule] catchAllRule (always true)
              d (ErrValue errUnclassified) 1 Hd)
    as (msg & Hmsg & Hres).
  - reflexivity.
  - intros r' Hr' He. split_elem Hr'; simpl in He; split_elem He.
  - right. right. left.
  - reflexivity.
  - done.
  - intros r' f' Hr' Hf'. split_elem Hr'; simpl in Hf'; [done| |];
      injection Hf' as <-; reflexivity.
  - vm_compute in Hmsg. injection Hmsg as <-. exact Hres.
Defined.

(** X3 on [errUnclassified] and the rules [catchAllRule; fallbackRule],
    whose predicates both accept it. *)
Lemma overlapping_predicates_depend_on_order_witness :
  ∃ ro1 ro2 (enc1 enc2 : EncoderFunc sample) msg1 msg2,
    newDefaultEncoder ro1 [catchAllRule; fallbackRule] = Ok enc1 ∧
    newDefaultEncoder ro2 [catchAllRule; fallbackRule] = Ok enc2 ∧
    enc1 (ErrValue errUnclassified) = Ok (1000%Z, msg1) ∧
    enc2 (ErrValue errUnclassified) = Ok (1005%Z, msg2).
Proof.
  apply (overlapping_predicates_depend_on_order [catchAllRule; fallbackRule]
           catchAllRule fallbackRule (always true) (always true)
           (ErrValue errUnclassified)).
  - intros r e Hr He. split_elem Hr; simpl in He; split_elem He.
  - reflexivity.
  - intros r Hr He. split_elem Hr; simpl in He; split_elem He.
  - left.
  - reflexivity.
  - right. left.
  - reflexivity.
  - done.
  - intros r f Hr Hf _. split_elem Hr; simpl in Hf;
      injection Hf as <-; reflexivity.
Defined.

(** X4 on [Message(lookupTranslator)] followed by [Encoder(noneEncoder)]. *)
Lemma options_compose_witness :
  ∃ d d',
    New listOrder [clientRule]
      ([Message lookupTranslator] ++ [Encoder noneEncoder]) = Ok d ∧
    New listOrder [clientRule] [Message lookupTranslator] = Ok d' ∧
    encoder d = noneEncoder ∧ msgTranslator d = msgTranslator d'.
Proof.
  destruct (New listOrder [clientRule]
              ([Message lookupTranslator] ++ [Encoder noneEncoder]))
    as [d|] eqn:Hd; [|by vm_compute in Hd].
  destruct (proj1 (options_compose listOrder [clientRule]
                     [Message lookupTranslator] noneEncoder lookupTranslator)
              d Hd) as (Henc & d' & Hd' & Ht).
  exists d, d'. split; [reflexivity|]. split; [exact Hd'|].
  split; [exact Henc|exact Ht].
Defined.

(** X5 on a rule set that lists the value of a slice type, with an
    [Encoder] option. *)
Lemma New_returns_iff_witness :
  returns (New listOrder [clientRule; sliceRule] [Encoder noneEncoder]) ↔
  hashableRules [clientRule; sliceRule].
Proof.
  apply (New_returns_iff listOrder [clientRule; sliceRule]
           [Encoder noneEncoder]).
  repeat constructor.
Defined.

(** X6 on the value of a slice type, which the predicate of [listRule]
    would accept. *)
Lemma Translate_unhashable_panics_witness :
  isList (ErrValue errList) = Ok true ∧
  (New listOrder [clientRule; listRule] [] ≫=
     λ d, Translate d (ErrValue errList) 1) = Panic.
Proof.
  split; [reflexivity|]. unfold New.
  destruct (newDefaultEncoder listOrder [clientRule; listRule])
    as [enc|] eqn:Henc; [|reflexivity].
  simpl.
  exact (Translate_unhashable_panics listOrder [clientRule; listRule] enc
           {| encoder := enc; msgTranslator := defaultMessageTranslator |}
           (ErrValue errList) 1 Henc eq_refl eq_refl).
Defined.

(** X7 on [errClient1], listed by [clientRule] and then by [otherRule],
    and on [errNaN], listed by [nanRule]. *)
Lemma newRuleIndex_error_last_wins_witness :
  ∃ idx,
    newRuleIndex [clientRule; nanRule; otherRule] = Ok idx ∧
    errToCode idx !! ErrValue errClient1 = Some 1003%Z ∧
    errToCode idx !! ErrValue errNaN = None ∧
    unreachable (errToCode idx)
      = list_to_set_disj [(ErrValue errNaN, 1007%Z)].
Proof.
  destruct (newRuleIndex [clientRule; nanRule; otherRule])
    as [idx|] eqn:Hidx; [|by vm_compute in Hidx].
  exists idx. split; [reflexivity|]. split; [|split].
  - exact (proj1 (newRuleIndex_error_last_wins
                    [clientRule; nanRule; otherRule] idx
                    (ErrValue errClient1) Hidx)).
  - exact (proj1 (newRuleIndex_error_last_wins
                    [clientRule; nanRule; otherRule] idx
                    (ErrValue errNaN) Hidx)).
  - exact (proj2 (proj2 (newRuleIndex_error_last_wins
                           [clientRule; nanRule; otherRule] idx
                           (ErrValue errNaN) Hidx))).
Defined.

(** X8 on [clientRule; catchAllRule] and its reversal. *)
Lemma newRuleIndex_order_irrelevant_witness :
  newRuleIndex [catchAllRule; clientRule]
    = newRuleIndex [clientRule; catchAllRule] ∧
  ∀ ro, newDefaultEncoder ro [catchAllRule; clientRule]
        = newDefaultEncoder ro [clientRule; catchAllRule].
Proof.
  apply (newRuleIndex_order_irrelevant [clientRule; catchAllRule]
           [catchAllRule; clientRule]).
  - intros r1 r2 Hr1 Hr2 [Hc|(e & He1 & He2)];
      split_elem Hr1; split_elem Hr2; try reflexivity;
      try discriminate Hc; simpl in He1, He2;
      try (by apply elem_of_nil in He1); by apply elem_of_nil in He2.
  - apply perm_swap.
Defined.

(** X9 on [inertRule], put between [clientRule] and [catchAllRule]. *)
Lemma inert_rule_changes_nothing_witness :
  ∃ enc enc',
    newDefaultEncoder listOrder [clientRule; catchAllRule] = Ok enc ∧
    newDefaultEncoder listOrder [clientRule; inertRule; catchAllRule]
      = Ok enc' ∧
    ∀ e, enc' e = enc e.
Proof.
  destruct (newDefaultEncoder listOrder [clientRule; catchAllRule])
    as [enc|] eqn:Henc; [|by vm_compute in Henc].
  destruct (newDefaultEncoder listOrder [clientRule; inertRule; catchAllRule])
    as [enc'|] eqn:Henc'; [|by vm_compute in Henc'].
  exists enc, enc'. split; [reflexivity|]. split; [reflexivity|].
  apply (inert_rule_changes_nothing listOrder [clientRule] inertRule
           [catchAllRule] enc enc'); [reflexivity|reflexivity| |exact Henc|exact Henc'].
  intros r' Hr'. simpl in Hr'. split_elem Hr'; discriminate.
Defined.
